(** * Slot grammar analyzer: greedy slot parser and bounded segmentation search

    Shallow embedding of the Python sources [analyze_slot_grammar.py] and
    [analyze_slot_grammar_v2.py] .. [analyze_slot_grammar_v8.py], with the
    properties of the matching engine stated and proved over it. *)

From Stdlib Require Import Ascii String.
From Stdlib Require Import List Arith Lia Bool NArith Permutation Sorted.
Import ListNotations.

(** ** Strings

    A Python [str] is a finite sequence of Unicode code points; [len],
    slicing and [startswith] all count code points.  A character is its code
    point, a string the list of its characters. *)

Definition char := N.
Definition str := list char.

(** A string literal of the source. *)
Definition lit (s : string) : str := map N_of_ascii (list_ascii_of_string s).

(** [a.startswith(b)] *)
Fixpoint is_prefix (opt rest : str) : bool :=
  match opt, rest with
  | [], _ => true
  | _ :: _, [] => false
  | a :: opt', b :: rest' => N.eqb a b && is_prefix opt' rest'
  end.

(** [word.startswith(opt, pos)]: [opt] occurs in [word] exactly at [pos].
    A start beyond the end of [word] never matches, not even the empty
    string. *)
Definition startswith (word opt : str) (pos : nat) : bool :=
  (pos <=? length word) && is_prefix opt (skipn pos word).

(** [s == ""] *)
Definition is_empty {A : Type} (s : list A) : bool :=
  match s with [] => true | _ :: _ => false end.

(** [range(1, n)] *)
Definition range1 (n : nat) : list nat := seq 1 (n - 1).

(** A [for] loop whose body either returns a value or falls through to the
    next iteration: the value of the first iteration that returns. *)
Fixpoint for_first {A : Type} (body : nat -> option A) (l : list nat) : option A :=
  match l with
  | [] => None
  | i :: l' =>
      match body i with
      | Some r => Some r
      | None => for_first body l'
      end
  end.

(** ** The greedy parser ([analyze_slot_grammar_v2.py], [parse_greedy])

    The same body is repeated in every version of the script; versions 1 and
    5 to 8 read a module-level grammar where versions 2 to 4 take [slots] as a
    parameter. *)

Definition Slot := list str.
Definition Grammar := list Slot.
Definition Matched := list (nat * str).

(** The inner loop: the first option of the slot occurring at [pos]. *)
Fixpoint first_option (word : str) (pos : nat) (options : Slot) : option str :=
  match options with
  | [] => None
  | option :: options' =>
      if startswith word option pos then Some option
      else first_option word pos options'
  end.

(** The outer loop over [enumerate(slots)], from slot [slot_idx] on, with the
    loop state [(pos, matched)]. *)
Fixpoint parse_loop (word : str) (slots : Grammar) (slot_idx pos : nat)
    (matched : Matched) : Matched * nat :=
  match slots with
  | [] => (matched, pos)
  | options :: slots' =>
      if length word <=? pos then (matched, pos)
      else
        match first_option word pos options with
        | Some option =>
            parse_loop word slots' (S slot_idx) (pos + length option)
              (matched ++ [(slot_idx, option)])
        | None => parse_loop word slots' (S slot_idx) pos matched
        end
  end.

Module V2.

Definition SLOTS_V1 : Grammar := map (map lit)
  [ ["l"; "r"; "o"; "y"; "s"];
    ["q"; "s"; "d"; "x"; "l"; "r"];
    ["o"; "y"];
    ["d"; "r"];
    ["t"; "k"; "p"; "f"];
    ["ch"; "sh"];
    ["cth"; "ckh"; "cph"; "cfh"];
    ["eee"; "ee"; "e"; "g"];
    ["k"; "t"; "p"; "f"; "ch"; "sh"; "l"; "r"; "o"; "y"];
    ["s"; "d"];
    ["o"; "a"; "y"];
    ["iii"; "ii"; "i"];
    ["d"; "l"; "r"; "m"; "n"];
    ["s"];
    ["y"];
    ["k"; "t"; "p"; "f"; "l"; "r"; "o"; "y"] ]%string.

Definition SLOTS_V2 : Grammar := map (map lit)
  [ ["l"; "r"; "o"; "y"; "s"];
    ["q"; "s"; "d"; "x"; "l"; "r"; "h"];
    ["o"; "y"];
    ["d"; "r"];
    ["t"; "k"; "p"; "f"];
    ["ch"; "sh"];
    ["cth"; "ckh"; "cph"; "cfh"];
    ["eee"; "ee"; "e"; "g"];
    ["k"; "t"; "p"; "f"; "ch"; "sh"; "l"; "r"; "o"; "y"];
    ["s"; "d"];
    ["o"; "a"; "y"];
    ["iii"; "ii"; "i"];
    ["d"; "l"; "r"; "m"; "n"];
    ["s"];
    ["y"];
    ["k"; "t"; "p"; "f"; "l"; "r"; "o"; "y"] ]%string.

Definition parse_greedy (word : str) (slots : Grammar) : Matched * str :=
  let '(matched, pos) := parse_loop word slots 0 0 [] in
  (matched, skipn pos word).

Definition is_match (word : str) (slots : Grammar) : bool :=
  let '(matched, remaining) := parse_greedy word slots in
  is_empty remaining && (0 <? length matched).

End V2.

(** ** Version 1 ([analyze_slot_grammar.py]) *)

Module V1.

Definition SLOTS : Grammar := map (map lit)
  [ ["l"; "r"; "o"; "y"; "s"];
    ["q"; "s"; "d"; "x"; "l"; "r"];
    ["o"; "y"];
    ["d"; "r"];
    ["t"; "k"; "p"; "f"];
    ["ch"; "sh"];
    ["cth"; "ckh"; "cph"; "cfh"];
    ["eee"; "ee"; "e"; "g"];
    ["k"; "t"; "p"; "f"; "ch"; "sh"; "l"; "r"; "o"; "y"];
    ["s"; "d"];
    ["o"; "a"; "y"];
    ["iii"; "ii"; "i"];
    ["d"; "l"; "r"; "m"; "n"];
    ["s"];
    ["y"];
    ["k"; "t"; "p"; "f"; "l"; "r"; "o"; "y"] ]%string.

(** [parse_greedy(word)]: the body of [V2.parse_greedy] over the module-level
    [SLOTS]. *)
Definition parse_greedy (word : str) : Matched * str :=
  let '(matched_slots, pos) := parse_loop word SLOTS 0 0 [] in
  (matched_slots, skipn pos word).

Definition is_match (word : str) : bool :=
  let '(matched, remaining) := parse_greedy word in
  is_empty remaining && (0 <? length matched).

(** *** Residue diagnostics of version 1 *)

Definition str_eq_dec : forall a b : str, {a = b} + {a <> b} :=
  list_eq_dec N.eq_dec.

(** [ALL_OPTIONS], a Python [set]: the options of all slots without
    repetition.  The iteration order of a set is unspecified; this is one
    such order, and [unknown_chars_over] takes the order as a parameter. *)
Definition ALL_OPTIONS : list str := nodup str_eq_dec (concat SLOTS).

(** [sorted(options, key=len, reverse=True)]: a stable sort, longest first. *)
Fixpoint insert_by_len (opt : str) (l : list str) : list str :=
  match l with
  | [] => [opt]
  | o :: l' =>
      if length o <=? length opt then opt :: l else o :: insert_by_len opt l'
  end.

Definition sorted_by_len (options : list str) : list str :=
  fold_right insert_by_len [] options.

(** The [while i < len(text)] loop of [unknown_chars_in], with the loop state
    [(i, result)]; [None] when [fuel] iterations were not enough. *)
Fixpoint unknown_loop (fuel : nat) (options : list str) (text : str) (i : nat)
    (result : list char) : option (list char) :=
  match fuel with
  | 0 => None
  | S fuel' =>
      if i <? length text then
        match first_option text i (sorted_by_len options) with
        | Some opt => unknown_loop fuel' options text (i + length opt) result
        | None =>
            unknown_loop fuel' options text (i + 1) (result ++ [nth i text 0%N])
        end
      else Some result
  end.

(** [unknown_chars_in] with the set iterated in the order [options]. *)
Definition unknown_chars_over (options : list str) (text : str) : option (list char) :=
  unknown_loop (S (length text)) options text 0 [].

Definition unknown_chars_in (text : str) : option (list char) :=
  unknown_chars_over ALL_OPTIONS text.

End V1.

(** ** Version 4 ([analyze_slot_grammar_v4.py]) *)

Module V4.

Definition SLOTS_V4 : Grammar := map (map lit)
  [ ["l"; "r"; "o"; "y"; "s"];
    ["q"; "s"; "d"; "x"; "l"; "r"; "h"];
    ["o"; "y"];
    ["d"; "r"];
    ["t"; "k"; "p"; "f"];
    ["ch"; "sh"];
    ["cth"; "ckh"; "cph"; "cfh"];
    ["eee"; "ee"; "e"; "g"];
    ["k"; "t"; "p"; "f"; "ch"; "sh"; "l"; "r"; "o"; "y"];
    ["s"; "d"; "c"];
    ["o"; "a"; "y"];
    ["iii"; "ii"; "i"];
    ["d"; "l"; "r"; "m"; "n"];
    ["s"];
    ["y"];
    ["k"; "t"; "p"; "f"; "l"; "r"; "o"; "y"] ]%string.

Definition parse_greedy (word : str) (slots : Grammar) : Matched * str :=
  let '(matched, pos) := parse_loop word slots 0 0 [] in
  (matched, skipn pos word).

Definition is_v4_base (word : str) : bool :=
  let '(m, r) := parse_greedy word SLOTS_V4 in
  is_empty r && negb (is_empty m).

Definition is_v4_match (word : str) : bool * list (str * Matched) :=
  if is_v4_base word then
    let '(m, _) := parse_greedy word SLOTS_V4 in
    (true, [(word, m)])
  else
    match
      for_first (fun i =>
        let p1 := firstn i word in
        let p2 := skipn i word in
        let '(m1, r1) := parse_greedy p1 SLOTS_V4 in
        if negb (is_empty r1) || is_empty m1 then None
        else
          let '(m2, r2) := parse_greedy p2 SLOTS_V4 in
          if is_empty r2 && negb (is_empty m2)
          then Some (true, [(p1, m1); (p2, m2)])
          else None)
        (range1 (length word))
    with
    | Some r => r
    | None => (false, [])
    end.

End V4.

(** ** Version 5 ([analyze_slot_grammar_v5.py])

    [lru_cache] memoises a pure function of the word and does not change
    what it returns.  A [for] loop that leaves only by [return True], with
    [return False] after it, is the disjunction over its range of "this
    iteration returns [True]". *)

Module V5.

Definition SLOTS_V4 : Grammar := map (map lit)
  [ ["l"; "r"; "o"; "y"; "s"];
    ["q"; "s"; "d"; "x"; "l"; "r"; "h"];
    ["o"; "y"];
    ["d"; "r"];
    ["t"; "k"; "p"; "f"];
    ["ch"; "sh"];
    ["cth"; "ckh"; "cph"; "cfh"];
    ["eee"; "ee"; "e"; "g"];
    ["k"; "t"; "p"; "f"; "ch"; "sh"; "l"; "r"; "o"; "y"];
    ["s"; "d"; "c"];
    ["o"; "a"; "y"];
    ["iii"; "ii"; "i"];
    ["d"; "l"; "r"; "m"; "n"];
    ["s"];
    ["y"];
    ["k"; "t"; "p"; "f"; "l"; "r"; "o"; "y"] ]%string.

Definition parse_greedy (word : str) : Matched * str :=
  let '(matched, pos) := parse_loop word SLOTS_V4 0 0 [] in
  (matched, skipn pos word).

Definition is_base (word : str) : bool :=
  let '(m, r) := parse_greedy word in
  is_empty r && negb (is_empty m).

Definition is_v5 (word : str) : bool :=
  if is_base word then true
  else
    existsb (fun i =>
      let p1 := firstn i word in
      if negb (is_base p1) then false
      else
        let rest := skipn i word in
        if is_base rest then true
        else
          existsb (fun j => is_base (firstn j rest) && is_base (skipn j rest))
            (range1 (length rest)))
      (range1 (length word)).

Definition find_split (word : str) : list (str * Matched) :=
  if is_base word then
    let '(m, _) := parse_greedy word in
    [(word, m)]
  else
    match
      for_first (fun i =>
        let p1 := firstn i word in
        if negb (is_base p1) then None
        else
          let '(m1, _) := parse_greedy p1 in
          let rest := skipn i word in
          if is_base rest then
            let '(m2, _) := parse_greedy rest in
            Some [(p1, m1); (rest, m2)]
          else
            for_first (fun j =>
              let p2 := firstn j rest in
              let p3 := skipn j rest in
              if is_base p2 && is_base p3 then
                let '(m2, _) := parse_greedy p2 in
                let '(m3, _) := parse_greedy p3 in
                Some [(p1, m1); (p2, m2); (p3, m3)]
              else None)
              (range1 (length rest)))
        (range1 (length word))
    with
    | Some parts => parts
    | None => []
    end.

End V5.

(** ** Versions 6, 7 and 8 ([analyze_slot_grammar_v6.py] ..
    [analyze_slot_grammar_v8.py])

    The three scripts repeat one search, each over its own [is_base]. *)

Module V6.

Definition SLOTS_V4 : Grammar := map (map lit)
  [ ["l"; "r"; "o"; "y"; "s"];
    ["q"; "s"; "d"; "x"; "l"; "r"; "h"];
    ["o"; "y"]; ["d"; "r"]; ["t"; "k"; "p"; "f"];
    ["ch"; "sh"]; ["cth"; "ckh"; "cph"; "cfh"];
    ["eee"; "ee"; "e"; "g"];
    ["k"; "t"; "p"; "f"; "ch"; "sh"; "l"; "r"; "o"; "y"];
    ["s"; "d"; "c"]; ["o"; "a"; "y"]; ["iii"; "ii"; "i"];
    ["d"; "l"; "r"; "m"; "n"]; ["s"]; ["y"];
    ["k"; "t"; "p"; "f"; "l"; "r"; "o"; "y"] ]%string.

Definition parse_greedy (word : str) : Matched * str :=
  let '(matched, pos) := parse_loop word SLOTS_V4 0 0 [] in
  (matched, skipn pos word).

Definition is_base (word : str) : bool :=
  let '(m, r) := parse_greedy word in
  is_empty r && negb (is_empty m).

Definition is_v6 (word : str) : bool :=
  if is_base word then true
  else
    existsb (fun i =>
      let p1 := firstn i word in
      if negb (is_base p1) then false
      else
        let rest := skipn i word in
        if is_base rest then true
        else
          existsb (fun j =>
            let p2 := firstn j rest in
            if negb (is_base p2) then false
            else
              let rest2 := skipn j rest in
              if is_base rest2 then true
              else
                existsb (fun k =>
                  is_base (firstn k rest2) && is_base (skipn k rest2))
                  (range1 (length rest2)))
            (range1 (length rest)))
      (range1 (length word)).

End V6.

Module V7.

Definition SLOTS_V7 : Grammar := map (map lit)
  [ ["l"; "r"; "o"; "y"; "s"; "v"];
    ["q"; "s"; "d"; "x"; "l"; "r"; "h"];
    ["o"; "y"]; ["d"; "r"]; ["t"; "k"; "p"; "f"];
    ["ch"; "sh"]; ["cth"; "ckh"; "cph"; "cfh"];
    ["eee"; "ee"; "e"; "g"];
    ["k"; "t"; "p"; "f"; "ch"; "sh"; "l"; "r"; "o"; "y"];
    ["s"; "d"; "c"]; ["o"; "a"; "y"]; ["iii"; "ii"; "i"];
    ["d"; "l"; "r"; "m"; "n"]; ["s"]; ["y"];
    ["k"; "t"; "p"; "f"; "l"; "r"; "o"; "y"] ]%string.

Definition parse_greedy (word : str) : Matched * str :=
  let '(matched, pos) := parse_loop word SLOTS_V7 0 0 [] in
  (matched, skipn pos word).

Definition is_base (word : str) : bool :=
  let '(m, r) := parse_greedy word in
  is_empty r && negb (is_empty m).

Definition is_v7 (word : str) : bool :=
  if is_base word then true
  else
    existsb (fun i =>
      let p1 := firstn i word in
      if negb (is_base p1) then false
      else
        let rest := skipn i word in
        if is_base rest then true
        else
          existsb (fun j =>
            let p2 := firstn j rest in
            if negb (is_base p2) then false
            else
              let rest2 := skipn j rest in
              if is_base rest2 then true
              else
                existsb (fun k =>
                  is_base (firstn k rest2) && is_base (skipn k rest2))
                  (range1 (length rest2)))
            (range1 (length rest)))
      (range1 (length word)).

End V7.

Module V8.

Definition SLOTS_V8 : Grammar := map (map lit)
  [ ["l"; "r"; "o"; "y"; "s"; "v"];
    ["q"; "s"; "d"; "x"; "l"; "r"; "h"; "z"];
    ["o"; "y"]; ["d"; "r"]; ["t"; "k"; "p"; "f"];
    ["ch"; "sh"]; ["cth"; "ckh"; "cph"; "cfh"];
    ["eee"; "ee"; "e"; "g"];
    ["k"; "t"; "p"; "f"; "ch"; "sh"; "l"; "r"; "o"; "y"];
    ["s"; "d"; "c"]; ["o"; "a"; "y"]; ["iii"; "ii"; "i"];
    ["d"; "l"; "r"; "m"; "n"]; ["s"]; ["y"];
    ["k"; "t"; "p"; "f"; "l"; "r"; "o"; "y"] ]%string.

Definition parse_greedy (word : str) : Matched * str :=
  let '(matched, pos) := parse_loop word SLOTS_V8 0 0 [] in
  (matched, skipn pos word).

Definition is_base (word : str) : bool :=
  let '(m, r) := parse_greedy word in
  is_empty r && negb (is_empty m).

Definition is_v8 (word : str) : bool :=
  if is_base word then true
  else
    existsb (fun i =>
      let p1 := firstn i word in
      if negb (is_base p1) then false
      else
        let rest := skipn i word in
        if is_base rest then true
        else
          existsb (fun j =>
            let p2 := firstn j rest in
            if negb (is_base p2) then false
            else
              let rest2 := skipn j rest in
              if is_base rest2 then true
              else
                existsb (fun k =>
                  is_base (firstn k rest2) && is_base (skipn k rest2))
                  (range1 (length rest2)))
            (range1 (length rest)))
      (range1 (length word)).

End V8.

(** ** Segmentations

    What the searches decide, said without loops: a word is the
    concatenation of between one and [n] non-empty blocks, each accepted by
    the full-match predicate [base]. *)

Definition full_block (base : str -> bool) (b : str) : Prop :=
  b <> [] /\ base b = true.

Definition segmentation (base : str -> bool) (n : nat) (word : str) : Prop :=
  exists blocks : list str,
    1 <= length blocks <= n /\
    Forall (full_block base) blocks /\
    concat blocks = word.

(** One full-matching block followed by at most [n] further ones, the split
    points read off as the loops find them. *)
Fixpoint splits (base : str -> bool) (n : nat) (word : str) : Prop :=
  match n with
  | 0 => base word = true
  | S n' =>
      base word = true \/
      exists p rest, p <> [] /\ rest <> [] /\ word = p ++ rest /\
                     base p = true /\ splits base n' rest
  end.

(** The nested loops of the searches over an arbitrary full-match predicate:
    [search3] is the body of [is_v5], [search4] the body shared by [is_v6],
    [is_v7] and [is_v8]. *)

Definition last_loop (base : str -> bool) (rest : str) : bool :=
  existsb (fun k => base (firstn k rest) && base (skipn k rest))
    (range1 (length rest)).

Definition middle_loop (base : str -> bool) (rest : str) : bool :=
  existsb (fun j =>
    let p2 := firstn j rest in
    if negb (base p2) then false
    else
      let rest2 := skipn j rest in
      if base rest2 then true else last_loop base rest2)
    (range1 (length rest)).

Definition search3 (base : str -> bool) (word : str) : bool :=
  if base word then true
  else
    existsb (fun i =>
      let p1 := firstn i word in
      if negb (base p1) then false
      else
        let rest := skipn i word in
        if base rest then true else last_loop base rest)
      (range1 (length word)).

Definition search4 (base : str -> bool) (word : str) : bool :=
  if base word then true
  else
    existsb (fun i =>
      let p1 := firstn i word in
      if negb (base p1) then false
      else
        let rest := skipn i word in
        if base rest then true else middle_loop base rest)
      (range1 (length word)).

Definition tail_splits (base : str -> bool) (n : nat) (word : str) : Prop :=
  exists p rest, p <> [] /\ rest <> [] /\ word = p ++ rest /\
                 base p = true /\ splits base n rest.

(** What a returned pair of [find_split] looks like. *)
Definition sound_part (part : str * Matched) : Prop :=
  fst part <> [] /\ V5.is_base (fst part) = true /\
  snd part = fst (V5.parse_greedy (fst part)).

(** The character [z], which version 8 adds to slot 1. *)
Definition char_z : char := N_of_ascii "z".

(** ** Version 3 ([analyze_slot_grammar_v3.py]) *)

Module V3.

Definition SLOTS_V2 : Grammar := map (map lit)
  [ ["l"; "r"; "o"; "y"; "s"];
    ["q"; "s"; "d"; "x"; "l"; "r"; "h"];
    ["o"; "y"];
    ["d"; "r"];
    ["t"; "k"; "p"; "f"];
    ["ch"; "sh"];
    ["cth"; "ckh"; "cph"; "cfh"];
    ["eee"; "ee"; "e"; "g"];
    ["k"; "t"; "p"; "f"; "ch"; "sh"; "l"; "r"; "o"; "y"];
    ["s"; "d"];
    ["o"; "a"; "y"];
    ["iii"; "ii"; "i"];
    ["d"; "l"; "r"; "m"; "n"];
    ["s"];
    ["y"];
    ["k"; "t"; "p"; "f"; "l"; "r"; "o"; "y"] ]%string.

Definition parse_greedy (word : str) (slots : Grammar) : Matched * str :=
  let '(matched, pos) := parse_loop word slots 0 0 [] in
  (matched, skipn pos word).

Definition is_v2_match (word : str) : bool :=
  let '(m, r) := parse_greedy word SLOTS_V2 in
  is_empty r && (0 <? length m).

Definition is_v3_match (word : str) : bool * list (str * Matched) :=
  let '(m, r) := parse_greedy word SLOTS_V2 in
  if is_empty r && negb (is_empty m) then (true, [(word, m)])
  else
    match
      for_first (fun i =>
        let p1 := firstn i word in
        let p2 := skipn i word in
        let '(m1, r1) := parse_greedy p1 SLOTS_V2 in
        if negb (is_empty r1) || is_empty m1 then None
        else
          let '(m2, r2) := parse_greedy p2 SLOTS_V2 in
          if is_empty r2 && negb (is_empty m2)
          then Some (true, [(p1, m1); (p2, m2)])
          else None)
        (range1 (length word))
    with
    | Some r => r
    | None => (false, [])
    end.

End V3.

(** ** The comparison with version 3 inside [main] of version 4
    ([analyze_slot_grammar_v4.py]) *)

Module V4Main.

(** [l[i] = v] on a list; [None] is Python's [IndexError]. *)
Fixpoint set_item {A : Type} (l : list A) (i : nat) (v : A) : option (list A) :=
  match l, i with
  | [], _ => None
  | _ :: l', 0 => Some (v :: l')
  | a :: l', S i' =>
      match set_item l' i' v with
      | Some r => Some (a :: r)
      | None => None
      end
  end.

(** [v4_base_slots]: a copy of [SLOTS_V4] with slot 9 set back to [s, d]. *)
Definition v4_base_slots : option Grammar :=
  set_item V4.SLOTS_V4 9 [lit "s"; lit "d"].

(** The local function [iv2] of [is_v3], over the value of
    [v4_base_slots]. *)
Definition iv2 (slots : Grammar) (x : str) : bool :=
  let '(m, r) := V4.parse_greedy x slots in
  is_empty r && negb (is_empty m).

(** The local function [is_v3], over the value of [v4_base_slots]. *)
Definition is_v3 (slots : Grammar) (w : str) : bool :=
  if iv2 slots w then true
  else
    existsb (fun i => iv2 slots (firstn i w) && iv2 slots (skipn i w))
      (range1 (length w)).

(** The residue kept for a word that did not match: the leftover of the
    word itself, then any shorter leftover of a second part whose first part
    is a full match. *)
Definition best_rem (w : str) : str :=
  let '(m, r) := V4.parse_greedy w V4.SLOTS_V4 in
  let best_rem := if is_empty r then w else r in
  fold_left (fun best_rem i =>
    let p1 := firstn i w in
    let p2 := skipn i w in
    let '(m1, r1) := V4.parse_greedy p1 V4.SLOTS_V4 in
    if negb (is_empty r1) || is_empty m1 then best_rem
    else
      let '(_, r2) := V4.parse_greedy p2 V4.SLOTS_V4 in
      if length r2 <? length best_rem then r2 else best_rem)
    (range1 (length w)) best_rem.

End V4Main.

(** ** Reading the parser and the two-block searches without loops *)

(** The full-match test on a parse: nothing left and something matched. *)
Definition full_match (slots : Grammar) (word : str) : bool :=
  let '(m, r) := V2.parse_greedy word slots in
  is_empty r && negb (is_empty m).

(** The greedy parse by recursion on the slots: [rest] is the unread part of
    the word and [slot_idx] the index of the first slot of [slots]. *)
Fixpoint parse_rec (slots : Grammar) (slot_idx : nat) (rest : str) : Matched * str :=
  match slots with
  | [] => ([], rest)
  | options :: slots' =>
      if is_empty rest then ([], rest)
      else
        match first_option rest 0 options with
        | Some option =>
            let '(m, r) := parse_rec slots' (S slot_idx) (skipn (length option) rest) in
            ((slot_idx, option) :: m, r)
        | None => parse_rec slots' (S slot_idx) rest
        end
  end.

(** The longest option of a slot. *)
Definition max_option_len (options : Slot) : nat :=
  fold_right (fun o n => Nat.max (length o) n) 0 options.

(** [o] starts with the character [c]. *)
Definition starts_with_char (c : char) (o : str) : bool :=
  match o with
  | [] => false
  | a :: _ => N.eqb a c
  end.

(** The search for at most two blocks, the body shared by [is_v3] of version
    4's [main] and, with the witness dropped, by [is_v3_match] and
    [is_v4_match]. *)
Definition search2 (base : str -> bool) (word : str) : bool :=
  if base word then true
  else
    existsb (fun i => base (firstn i word) && base (skipn i word))
      (range1 (length word)).

(** The body of [is_v3_match] over an arbitrary grammar. *)
Definition match2 (slots : Grammar) (word : str) : bool * list (str * Matched) :=
  let '(m, r) := V2.parse_greedy word slots in
  if is_empty r && negb (is_empty m) then (true, [(word, m)])
  else
    match
      for_first (fun i =>
        let p1 := firstn i word in
        let p2 := skipn i word in
        let '(m1, r1) := V2.parse_greedy p1 slots in
        if negb (is_empty r1) || is_empty m1 then None
        else
          let '(m2, r2) := V2.parse_greedy p2 slots in
          if is_empty r2 && negb (is_empty m2)
          then Some (true, [(p1, m1); (p2, m2)])
          else None)
        (range1 (length word))
    with
    | Some r => r
    | None => (false, [])
    end.

(** The pair of a parse after a slot is inserted at index [k]: the slots
    from [k] on move up by one. *)
Definition renumber (k : nat) (ip : nat * str) : nat * str :=
  (if k <=? fst ip then S (fst ip) else fst ip, snd ip).

(** ** Properties of the greedy parser *)

Section ParserFacts.

Variable word : str.

Lemma is_prefix_app (opt rest : str) :
  is_prefix opt rest = true -> exists tail, rest = opt ++ tail.
Proof.
  revert rest; induction opt as [|a opt IH]; intros rest H.
  - exists rest; reflexivity.
  - destruct rest as [|b rest]; [discriminate|].
    simpl in H. apply andb_true_iff in H as [Hab Hp].
    apply N.eqb_eq in Hab; subst b.
    destruct (IH _ Hp) as [tail ->].
    exists tail; reflexivity.
Qed.

Lemma first_option_startswith (pos : nat) (options : Slot) (option : str) :
  first_option word pos options = Some option ->
  In option options /\ startswith word option pos = true.
Proof.
  induction options as [|o options IH]; simpl; [discriminate|].
  destruct (startswith word o pos) eqn:E.
  - intros [= <-]; auto.
  - intros H; destruct (IH H); auto.
Qed.

Lemma startswith_advance (pos : nat) (option : str) :
  startswith word option pos = true ->
  pos + length option <= length word /\
  firstn (pos + length option) word = firstn pos word ++ option.
Proof.
  unfold startswith. intros H.
  apply andb_true_iff in H as [Hle Hp].
  apply Nat.leb_le in Hle.
  destruct (is_prefix_app _ _ Hp) as [tail Ht].
  assert (Hw : word = firstn pos word ++ option ++ tail)
    by (rewrite <- Ht; symmetry; apply firstn_skipn).
  assert (Hl : length (firstn pos word) = pos)
    by (apply firstn_length_le; exact Hle).
  remember (firstn pos word) as p eqn:Hp'. clear Hp'.
  split.
  - rewrite Hw, !length_app. lia.
  - rewrite Hw, app_assoc.
    replace (pos + length option) with (length (p ++ option) + 0)
      by (rewrite length_app; lia).
    rewrite firstn_app_2. simpl. apply app_nil_r.
Qed.

(** The loop invariant: what is matched so far spells the consumed prefix. *)
Lemma parse_loop_consumed (slots : Grammar) :
  forall slot_idx pos matched matched' pos',
    parse_loop word slots slot_idx pos matched = (matched', pos') ->
    pos <= length word ->
    concat (map snd matched) = firstn pos word ->
    pos' <= length word /\ concat (map snd matched') = firstn pos' word.
Proof.
  induction slots as [|options slots IH]; simpl; intros idx pos m m' pos' H Hle Hc.
  - injection H as <- <-; auto.
  - destruct (length word <=? pos).
    + injection H as <- <-; auto.
    + destruct (first_option word pos options) as [option|] eqn:E.
      * apply first_option_startswith in E as [_ E].
        apply startswith_advance in E as [Hle' Hf].
        apply IH in H; auto.
        rewrite map_app, concat_app, Hc, Hf. simpl. now rewrite app_nil_r.
      * apply IH in H; auto.
Qed.

End ParserFacts.

(** C1. For every grammar and every input string, the matched pattern strings
    of [parse_greedy], concatenated in order and followed by the returned
    leftover, are the input string; in particular for the module-level
    grammar of version 1. *)
Theorem parse_greedy_reconstructs :
  (forall (slots : Grammar) (word : str),
      concat (map snd (fst (V2.parse_greedy word slots)))
        ++ snd (V2.parse_greedy word slots) = word) /\
  (forall word : str,
      concat (map snd (fst (V1.parse_greedy word)))
        ++ snd (V1.parse_greedy word) = word).
Proof.
  assert (G : forall (slots : Grammar) (word : str),
      concat (map snd (fst (V2.parse_greedy word slots)))
        ++ snd (V2.parse_greedy word slots) = word).
  { intros slots word. unfold V2.parse_greedy.
    destruct (parse_loop word slots 0 0 []) as [matched pos] eqn:E.
    apply parse_loop_consumed in E as [_ E]; simpl; auto with arith.
    rewrite E. apply firstn_skipn. }
  split; [exact G|].
  intros word. exact (G V1.SLOTS word).
Qed.

(** *** Worked examples *)

(** Within a slot the earlier option wins, even over a longer later one. *)
Example earlier_option_wins :
  V2.parse_greedy (lit "ab") [[lit "a"; lit "ab"]; [lit "b"]]
  = ([(0, lit "a"); (1, lit "b")], lit "").
Proof. reflexivity. Qed.

Example second_option_tried :
  V2.parse_greedy (lit "sh") [[lit "ch"; lit "sh"]] = ([(0, lit "sh")], lit "") /\
  V2.is_match (lit "sh") [[lit "ch"; lit "sh"]] = true.
Proof. split; reflexivity. Qed.

Example two_slots :
  V2.is_match (lit "sh") [[lit "s"]; [lit "h"]] = true /\
  V2.parse_greedy (lit "shh") [[lit "s"]; [lit "h"]]
  = ([(0, lit "s"); (1, lit "h")], lit "h").
Proof. split; reflexivity. Qed.

(** A slot that claims a character starves a later one: version 1 reads the
    [s] of [shedy] in slot 0 and is left with [hedy]. *)
Example slot0_claims_s :
  V1.parse_greedy (lit "shedy") = ([(0, lit "s")], lit "hedy") /\
  V1.parse_greedy (lit "daiin")
  = ([(1, lit "d"); (10, lit "a"); (11, lit "ii"); (12, lit "n")], lit "").
Proof. split; reflexivity. Qed.

Example unknown_chars_examples :
  V1.unknown_chars_over [lit "s"; lit "h"] (lit "sx") = Some (lit "x") /\
  V1.unknown_chars_over [lit "s"; lit "h"] (lit "sh") = Some [] /\
  V1.unknown_chars_in (lit "chzcthx9") = Some (lit "z9").
Proof. repeat split; reflexivity. Qed.

(** *** Slot indices of a parse *)

Lemma StronglySorted_lt_snoc (l : list nat) (x : nat) :
  StronglySorted lt l -> Forall (fun i => i < x) l ->
  StronglySorted lt (l ++ [x]).
Proof.
  induction 1 as [|a l Hs IH Ha]; intros Hx; simpl.
  - repeat constructor.
  - inversion Hx; subst. constructor; auto.
    apply Forall_app; split; auto.
Qed.

(** The loop invariant: the recorded indices increase and stay below the
    index of the slot the loop is at. *)
Lemma parse_loop_increasing (word : str) (slots : Grammar) :
  forall slot_idx pos matched matched' pos',
    parse_loop word slots slot_idx pos matched = (matched', pos') ->
    StronglySorted lt (map fst matched) ->
    Forall (fun i => i < slot_idx) (map fst matched) ->
    StronglySorted lt (map fst matched').
Proof.
  induction slots as [|options slots IH]; simpl; intros idx pos m m' pos' H Hs Hb.
  - injection H as <- <-; auto.
  - destruct (length word <=? pos).
    + injection H as <- <-; auto.
    + assert (Hb' : Forall (fun i => i < S idx) (map fst m))
        by (eapply Forall_impl; [|exact Hb]; simpl; intros; lia).
      destruct (first_option word pos options) as [option|].
      * apply IH in H; auto; rewrite map_app; simpl.
        -- apply StronglySorted_lt_snoc; auto.
        -- apply Forall_app; split; auto.
      * apply IH in H; auto.
Qed.

(** Every recorded pair names a slot of the grammar and one of its options. *)
Lemma parse_loop_in_slot (word : str) (slots : Grammar) :
  forall slot_idx pos matched matched' pos',
    parse_loop word slots slot_idx pos matched = (matched', pos') ->
    forall i p, In (i, p) matched' ->
      In (i, p) matched \/
      exists options, nth_error slots (i - slot_idx) = Some options /\
                      slot_idx <= i /\ In p options.
Proof.
  induction slots as [|options slots IH]; simpl; intros idx pos m m' pos' H i p Hin.
  - injection H as <- <-; auto.
  - destruct (length word <=? pos).
    + injection H as <- <-; auto.
    + destruct (first_option word pos options) as [option|] eqn:E.
      * apply first_option_startswith in E as [E _].
        destruct (IH _ _ _ _ _ H _ _ Hin) as [Hm|(o & Hn & Hle & Hp)].
        -- apply in_app_or in Hm as [Hm|[[= <- <-]|[]]]; auto.
           right. exists options. rewrite Nat.sub_diag. auto.
        -- right. exists o. replace (i - idx) with (S (i - S idx)) by lia.
           repeat split; auto; lia.
      * destruct (IH _ _ _ _ _ H _ _ Hin) as [Hm|(o & Hn & Hle & Hp)]; auto.
        right. exists o. replace (i - idx) with (S (i - S idx)) by lia.
        repeat split; auto; lia.
Qed.

(** C9. For every grammar and every input string, the slot indices of the
    pairs returned by [parse_greedy] strictly increase along the list, so no
    slot is used twice; in particular for the module-level grammar of
    version 1. *)
Theorem parse_greedy_indices_increase :
  (forall (slots : Grammar) (word : str),
      StronglySorted lt (map fst (fst (V2.parse_greedy word slots)))) /\
  (forall word : str,
      StronglySorted lt (map fst (fst (V1.parse_greedy word)))).
Proof.
  assert (G : forall (slots : Grammar) (word : str),
      StronglySorted lt (map fst (fst (V2.parse_greedy word slots)))).
  { intros slots word. unfold V2.parse_greedy.
    destruct (parse_loop word slots 0 0 []) as [matched pos] eqn:E.
    apply parse_loop_increasing in E; simpl; auto; constructor. }
  split; [exact G|].
  intros word. exact (G V1.SLOTS word).
Qed.

(** *** Configurations the parser does not reject *)

Lemma parse_loop_empty_slots (word : str) (n : nat) :
  forall slot_idx pos matched,
    parse_loop word (repeat [] n) slot_idx pos matched = (matched, pos).
Proof.
  induction n as [|n IH]; simpl; intros idx pos m; [reflexivity|].
  destruct (length word <=? pos); [reflexivity|]. apply IH.
Qed.

(** An empty slot offers nothing to match and is passed over. *)
Lemma empty_slot_unused (word : str) (pre post : Grammar) :
  existsb (fun ip => fst ip =? length pre)
    (fst (V2.parse_greedy word (pre ++ [] :: post))) = false.
Proof.
  unfold V2.parse_greedy.
  destruct (parse_loop word (pre ++ [] :: post) 0 0 []) as [m pos] eqn:E.
  simpl. apply not_true_is_false. intros H.
  apply existsb_exists in H as ([i p] & Hin & Hi).
  simpl in Hi. apply Nat.eqb_eq in Hi. subst i.
  destruct (parse_loop_in_slot _ _ _ _ _ _ _ E _ _ Hin) as [[]|(o & Hn & _ & Ho)].
  rewrite Nat.sub_0_r, nth_error_app2, Nat.sub_diag in Hn by lia.
  simpl in Hn. injection Hn as <-. destruct Ho.
Qed.

Lemma renumber_from (k i : nat) (o : str) :
  k <= i -> renumber k (i, o) = (S i, o).
Proof.
  intros H. unfold renumber. cbn [fst snd].
  apply Nat.leb_le in H. now rewrite H.
Qed.

Lemma renumber_before (k i : nat) (o : str) :
  i < k -> renumber k (i, o) = (i, o).
Proof.
  intros H. unfold renumber. cbn [fst snd].
  apply Nat.leb_gt in H. now rewrite H.
Qed.

(** From slot [k] on, the loop started one index later records the same
    options under the next index. *)
Lemma parse_loop_renumber (word : str) (k : nat) (slots : Grammar) :
  forall slot_idx pos m m' pos',
    k <= slot_idx ->
    parse_loop word slots slot_idx pos m = (m', pos') ->
    parse_loop word slots (S slot_idx) pos (map (renumber k) m)
    = (map (renumber k) m', pos').
Proof.
  induction slots as [|options slots IH]; simpl; intros idx pos m m' pos' Hk H.
  - now injection H as <- <-.
  - destruct (length word <=? pos); [now injection H as <- <-|].
    destruct (first_option word pos options) as [o|].
    + apply IH in H; [|lia]. rewrite map_app in H. cbn [map] in H.
      rewrite renumber_from in H by exact Hk. exact H.
    + apply IH; [lia|exact H].
Qed.

(** An empty slot inside a grammar is passed over: the loop records what it
    records without that slot, the later slots counted one higher. *)
Lemma parse_loop_empty_slot (word : str) (post : Grammar) :
  forall (pre : Grammar) slot_idx pos m m' pos',
    parse_loop word (pre ++ post) slot_idx pos m = (m', pos') ->
    parse_loop word (pre ++ [] :: post) slot_idx pos
      (map (renumber (slot_idx + length pre)) m)
    = (map (renumber (slot_idx + length pre)) m', pos').
Proof.
  induction pre as [|options pre IH]; simpl; intros idx pos m m' pos' H.
  - rewrite Nat.add_0_r. destruct (length word <=? pos) eqn:Hb.
    + destruct post; simpl in H; [|rewrite Hb in H]; now injection H as <- <-.
    + apply parse_loop_renumber; [lia|exact H].
  - destruct (length word <=? pos); [now injection H as <- <-|].
    destruct (first_option word pos options) as [o|].
    + apply IH in H. rewrite map_app in H. cbn [map] in H.
      rewrite Nat.add_succ_comm in H.
      rewrite renumber_before in H by lia. exact H.
    + apply IH in H. rewrite Nat.add_succ_comm in H. exact H.
Qed.

Lemma parse_greedy_empty_slot (word : str) (pre post : Grammar) :
  V2.parse_greedy word (pre ++ [] :: post)
  = (map (renumber (length pre)) (fst (V2.parse_greedy word (pre ++ post))),
     snd (V2.parse_greedy word (pre ++ post))).
Proof.
  unfold V2.parse_greedy.
  destruct (parse_loop word (pre ++ post) 0 0 []) as [m pos] eqn:E.
  apply parse_loop_empty_slot in E. simpl in E. rewrite E. reflexivity.
Qed.

(** C6, as the code has it. [parse_greedy] validates nothing and has no
    failure outcome.  Under the empty grammar, and under a grammar made of any
    number of empty slots, it returns the empty parse with the whole word as
    leftover, and [is_match] answers [False], for every word.  An empty slot
    among other slots is never used and the parse goes on with the slots
    after it: the result is the parse under the grammar without that slot,
    with the same leftover and the later slots counted one higher, and
    [is_match] answers as it does without the slot. *)
Theorem parse_greedy_accepts_malformed_grammar :
  forall (word : str) (n : nat) (pre post : Grammar),
    V2.parse_greedy word [] = ([], word) /\
    V2.is_match word [] = false /\
    V2.parse_greedy word (repeat [] n) = ([], word) /\
    V2.is_match word (repeat [] n) = false /\
    existsb (fun ip => fst ip =? length pre)
      (fst (V2.parse_greedy word (pre ++ [] :: post))) = false /\
    V2.parse_greedy word (pre ++ [] :: post)
    = (map (renumber (length pre)) (fst (V2.parse_greedy word (pre ++ post))),
       snd (V2.parse_greedy word (pre ++ post))) /\
    V2.is_match word (pre ++ [] :: post) = V2.is_match word (pre ++ post).
Proof.
  intros word n pre post.
  assert (H : forall k, V2.parse_greedy word (repeat [] k) = ([], word)).
  { intros k. unfold V2.parse_greedy. now rewrite parse_loop_empty_slots. }
  assert (M : forall k, V2.is_match word (repeat [] k) = false).
  { intros k. unfold V2.is_match. rewrite H. apply andb_false_r. }
  split; [exact (H 0)|]. split; [exact (M 0)|]. split; [exact (H n)|].
  split; [exact (M n)|]. split; [apply empty_slot_unused|].
  split; [apply parse_greedy_empty_slot|].
  unfold V2.is_match. rewrite parse_greedy_empty_slot.
  destruct (V2.parse_greedy word (pre ++ post)) as [m r]. simpl.
  now rewrite length_map.
Qed.

(** C6, as the specification states it, fails: called with an empty slots
    list, or with a slots list holding an empty slot, [parse_greedy] returns
    the empty parse with the whole word as leftover. *)
Lemma parse_greedy_malformed_not_rejected :
  V2.parse_greedy (lit "daiin") [] = ([], lit "daiin") /\
  V2.parse_greedy (lit "daiin") [[]] = ([], lit "daiin") /\
  V2.parse_greedy (lit "daiin") [[]; [lit "d"]] = ([(1, lit "d")], lit "aiin").
Proof. repeat split; reflexivity. Qed.

(** ** Properties of the segmentation searches *)

Lemma is_v5_search3 (word : str) : V5.is_v5 word = search3 V5.is_base word.
Proof. reflexivity. Qed.

Lemma is_v6_search4 (word : str) : V6.is_v6 word = search4 V6.is_base word.
Proof. reflexivity. Qed.

Lemma is_v7_search4 (word : str) : V7.is_v7 word = search4 V7.is_base word.
Proof. reflexivity. Qed.

Lemma is_v8_search4 (word : str) : V8.is_v8 word = search4 V8.is_base word.
Proof. reflexivity. Qed.

Lemma slots_v5_v6 : V5.SLOTS_V4 = V6.SLOTS_V4 /\ V4.SLOTS_V4 = V6.SLOTS_V4.
Proof. split; reflexivity. Qed.

Lemma is_base_v5_v6 (word : str) : V5.is_base word = V6.is_base word.
Proof. reflexivity. Qed.

Lemma nonempty_length {A : Type} (l : list A) : l <> [] <-> 0 < length l.
Proof.
  destruct l; simpl; split; intros H; try lia; try congruence.
Qed.

(** A loop over the split points [1 .. len(w)-1] looks at every way of
    cutting [w] into two non-empty pieces. *)
Lemma range1_split (g : nat -> bool) (P : str -> str -> Prop) (w : str) :
  (forall i, 1 <= i < length w ->
             (g i = true <-> P (firstn i w) (skipn i w))) ->
  existsb g (range1 (length w)) = true <->
  exists p r, p <> [] /\ r <> [] /\ w = p ++ r /\ P p r.
Proof.
  intros Hg. rewrite existsb_exists. unfold range1. split.
  - intros (i & Hi & Hgi). apply in_seq in Hi.
    assert (Hi' : 1 <= i < length w) by lia.
    exists (firstn i w), (skipn i w). repeat split.
    + apply nonempty_length. rewrite firstn_length_le; lia.
    + apply nonempty_length. rewrite length_skipn; lia.
    + symmetry; apply firstn_skipn.
    + apply Hg; auto.
  - intros (p & r & Hp & Hr & -> & HP).
    apply nonempty_length in Hp, Hr.
    exists (length p).
    assert (Hi : 1 <= length p < length (p ++ r)) by (rewrite length_app; lia).
    split; [apply in_seq; lia|].
    apply Hg; auto.
    rewrite firstn_app, skipn_app, firstn_all, skipn_all, Nat.sub_diag.
    simpl. now rewrite app_nil_r.
Qed.

Section SearchFacts.

Variable base : str -> bool.
Hypothesis base_nil : base [] = false.

Lemma base_nonempty (w : str) : base w = true -> w <> [].
Proof. intros H ->. congruence. Qed.

Lemma last_loop_spec (w : str) :
  last_loop base w = true <-> tail_splits base 0 w.
Proof.
  unfold last_loop, tail_splits. apply range1_split.
  intros i _. simpl. apply andb_true_iff.
Qed.

Lemma split_body_spec (inner : str -> bool) (n : nat) (p rest : str) :
  (inner rest = true <-> tail_splits base n rest) ->
  (if negb (base p) then false else if base rest then true else inner rest) = true
  <-> base p = true /\ splits base (S n) rest.
Proof.
  intros Hin. simpl.
  destruct (base p); simpl; [|split; [discriminate|intros [? _]; discriminate]].
  destruct (base rest) eqn:E.
  - split; auto.
  - rewrite Hin. split.
    + intros H; split; auto.
    + intros [_ [H|H]]; [discriminate|exact H].
Qed.

Lemma middle_loop_spec (w : str) :
  middle_loop base w = true <-> tail_splits base 1 w.
Proof.
  unfold middle_loop, tail_splits. apply range1_split.
  intros i _. apply split_body_spec, last_loop_spec.
Qed.

Lemma search3_spec (w : str) : search3 base w = true <-> splits base 2 w.
Proof.
  unfold search3. destruct (base w) eqn:E.
  - split; [intros _; left; exact E|reflexivity].
  - transitivity (tail_splits base 1 w).
    + unfold tail_splits. apply range1_split.
      intros i _. apply split_body_spec, last_loop_spec.
    + simpl. split; [intros H; right; exact H|intros [H|H]; [congruence|exact H]].
Qed.

Lemma search4_spec (w : str) : search4 base w = true <-> splits base 3 w.
Proof.
  unfold search4. destruct (base w) eqn:E.
  - split; [intros _; left; exact E|reflexivity].
  - transitivity (tail_splits base 2 w).
    + unfold tail_splits. apply range1_split.
      intros i _. apply split_body_spec, middle_loop_spec.
    + simpl. split; [intros H; right; exact H|intros [H|H]; [congruence|exact H]].
Qed.

(** Split points and lists of blocks describe the same decompositions. *)
Lemma splits_segmentation (n : nat) :
  forall w, splits base n w -> segmentation base (S n) w.
Proof.
  induction n as [|n IH]; intros w H.
  - exists [w]. simpl. rewrite app_nil_r. repeat split; auto.
    constructor; [split; auto using base_nonempty|constructor].
  - destruct H as [H|(p & r & Hp & Hr & -> & Hb & H)].
    + exists [w]. simpl. rewrite app_nil_r. repeat split; auto with arith.
      constructor; [split; auto using base_nonempty|constructor].
    + destruct (IH _ H) as (bs & [Hl1 Hl2] & Hf & <-).
      exists (p :: bs). simpl. repeat split; auto; try lia.
      constructor; [split; auto|auto].
Qed.

Lemma concat_nonempty (bs : list str) :
  bs <> [] -> Forall (full_block base) bs -> concat bs <> [].
Proof.
  destruct bs as [|b bs]; [congruence|].
  intros _ Hf. inversion Hf as [|? ? [Hb _] _]; subst. simpl.
  destruct b; [congruence|discriminate].
Qed.

Lemma segmentation_splits (n : nat) :
  forall w, segmentation base (S n) w -> splits base n w.
Proof.
  induction n as [|n IH]; intros w (bs & [Hl1 Hl2] & Hf & <-).
  - destruct bs as [|b [|b' bs]]; simpl in *; try lia.
    rewrite app_nil_r. inversion Hf as [|? ? [_ Hb] _]; subst. exact Hb.
  - destruct bs as [|b bs]; simpl in *; [lia|].
    inversion Hf as [|? ? [Hne Hb] Hf']; subst.
    destruct bs as [|b' bs].
    + left. simpl. rewrite app_nil_r. exact Hb.
    + right. exists b, (concat (b' :: bs)). repeat split; auto.
      * apply concat_nonempty; [discriminate|exact Hf'].
      * apply IH. exists (b' :: bs). simpl in *. repeat split; auto; lia.
Qed.

Lemma segmentation_mono (n m : nat) (w : str) :
  n <= m -> segmentation base n w -> segmentation base m w.
Proof.
  intros Hnm (bs & [Hl1 Hl2] & Hf & Hc).
  exists bs. repeat split; auto; lia.
Qed.

Lemma search3_segmentation (w : str) :
  search3 base w = true <-> segmentation base 3 w.
Proof.
  rewrite search3_spec. split; [apply splits_segmentation|apply segmentation_splits].
Qed.

Lemma search4_segmentation (w : str) :
  search4 base w = true <-> segmentation base 4 w.
Proof.
  rewrite search4_spec. split; [apply splits_segmentation|apply segmentation_splits].
Qed.

End SearchFacts.

Lemma is_base_v6_nil : V6.is_base [] = false.
Proof. reflexivity. Qed.

(** C4. For every word, [is_v6] answers [True] exactly when the word is the
    concatenation of between one and four non-empty substrings each accepted
    by [is_base]: the nested loops look at every split point, so no
    decomposition within the budget is missed. *)
Theorem is_v6_complete :
  forall word : str,
    V6.is_v6 word = true <-> segmentation V6.is_base 4 word.
Proof.
  intros word. rewrite is_v6_search4.
  apply search4_segmentation. reflexivity.
Qed.

(** C5. For every word, if the search with three blocks accepts it
    ([is_v5]), the search with four blocks over the same grammar accepts it
    ([is_v6]). *)
Theorem is_v5_implies_is_v6 :
  forall word : str, V5.is_v5 word = true -> V6.is_v6 word = true.
Proof.
  intros word H.
  rewrite is_v6_search4. rewrite is_v5_search3 in H.
  apply search4_segmentation; [reflexivity|].
  apply segmentation_mono with (n := 3); [lia|].
  apply search3_segmentation in H; [exact H|reflexivity].
Qed.

Lemma is_v5_implies_is_v6_witness :
  V5.is_v5 (lit "aiinaiinaiin") = true /\ V6.is_v6 (lit "aiinaiinaiin") = true.
Proof.
  split; [reflexivity|].
  apply (is_v5_implies_is_v6 (lit "aiinaiinaiin")). reflexivity.
Defined.

(** *** The witness split of version 5 *)

Lemma for_first_Some {A : Type} (body : nat -> option A) (l : list nat) (r : A) :
  for_first body l = Some r -> exists i, In i l /\ body i = Some r.
Proof.
  induction l as [|a l IH]; simpl; [discriminate|].
  destruct (body a) as [r'|] eqn:E.
  - intros [= <-]. exists a; auto.
  - intros H. destruct (IH H) as (i & Hi & Hb). exists i; auto.
Qed.

Lemma for_first_complete {A : Type} (body : nat -> option A) (g : nat -> bool)
    (l : list nat) :
  (forall i, In i l -> g i = true -> exists r, body i = Some r) ->
  existsb g l = true -> exists r, for_first body l = Some r.
Proof.
  induction l as [|a l IH]; simpl; intros Hg H; [discriminate|].
  destruct (body a) as [r|] eqn:E; [exists r; reflexivity|].
  apply orb_true_iff in H as [H|H].
  - destruct (Hg a (or_introl eq_refl) H) as [r Hr]. congruence.
  - apply IH; auto.
Qed.

Lemma is_base_v5_nonempty (w : str) : V5.is_base w = true -> w <> [].
Proof. intros H ->. discriminate. Qed.

Lemma sound_part_intro (p : str) :
  V5.is_base p = true -> sound_part (p, fst (V5.parse_greedy p)).
Proof.
  intros H. repeat split; auto using is_base_v5_nonempty.
Qed.

Lemma let_fst {A B C : Type} (x : A * B) (f : A -> C) :
  (let '(a, _) := x in f a) = f (fst x).
Proof. destruct x; reflexivity. Qed.

(** C2. Whenever [find_split] returns a non-empty list of (part, slots)
    pairs, every part is non-empty and accepted by [is_base] (each pair
    carrying the parse of its part), and the parts concatenated in order are
    the word. *)
Theorem find_split_sound :
  forall word : str,
    V5.find_split word <> [] ->
    Forall (fun part =>
              fst part <> [] /\ V5.is_base (fst part) = true /\
              snd part = fst (V5.parse_greedy (fst part)))
           (V5.find_split word) /\
    concat (map fst (V5.find_split word)) = word.
Proof.
  intros word. unfold V5.find_split.
  destruct (V5.is_base word) eqn:E.
  - intros _. rewrite let_fst. simpl. split; [|apply app_nil_r].
    constructor; [apply (sound_part_intro _ E)|constructor].
  - match goal with |- context [for_first ?b ?l] =>
      destruct (for_first b l) as [parts|] eqn:F end; [|congruence].
    intros _.
    apply for_first_Some in F as (i & _ & F). cbv zeta in F.
    destruct (V5.is_base (firstn i word)) eqn:E1; simpl in F; [|discriminate].
    rewrite let_fst in F.
    destruct (V5.is_base (skipn i word)) eqn:E2.
    + rewrite let_fst in F. injection F as <-. simpl. split.
      * repeat constructor; auto using is_base_v5_nonempty.
      * rewrite app_nil_r. apply firstn_skipn.
    + apply for_first_Some in F as (j & _ & F). cbv zeta in F.
      destruct (V5.is_base (firstn j (skipn i word))) eqn:E3; simpl in F;
        [|discriminate].
      destruct (V5.is_base (skipn j (skipn i word))) eqn:E4; simpl in F;
        [|discriminate].
      rewrite !let_fst in F. injection F as <-. simpl. split.
      * repeat constructor; auto using is_base_v5_nonempty.
      * rewrite app_nil_r, firstn_skipn. apply firstn_skipn.
Qed.

Lemma find_split_sound_witness :
  V5.find_split (lit "aiinaiinaiin") <> [] /\
  concat (map fst (V5.find_split (lit "aiinaiinaiin"))) = lit "aiinaiinaiin".
Proof.
  assert (H : V5.find_split (lit "aiinaiinaiin") <> [])
    by (vm_compute; discriminate).
  split; [exact H|].
  exact (proj2 (find_split_sound (lit "aiinaiinaiin") H)).
Defined.

(** The two-block search of version 4 is sound in the same way. *)
Lemma is_v4_match_sound (word : str) :
  fst (V4.is_v4_match word) = true ->
  Forall (fun part =>
            fst part <> [] /\ V4.is_v4_base (fst part) = true /\
            snd part = fst (V4.parse_greedy (fst part) V4.SLOTS_V4))
         (snd (V4.is_v4_match word)) /\
  concat (map fst (snd (V4.is_v4_match word))) = word.
Proof.
  assert (Hne : forall w, V4.is_v4_base w = true -> w <> [])
    by (intros w H ->; discriminate).
  unfold V4.is_v4_match.
  destruct (V4.is_v4_base word) eqn:E.
  - intros _. rewrite let_fst. simpl. split; [|apply app_nil_r].
    repeat constructor; auto.
  - match goal with |- context [for_first ?b ?l] =>
      destruct (for_first b l) as [r|] eqn:F end; [|simpl; discriminate].
    intros _.
    apply for_first_Some in F as (i & _ & F). cbv zeta in F.
    assert (B : forall w, V4.is_v4_base w =
                let '(m, r) := V4.parse_greedy w V4.SLOTS_V4 in
                is_empty r && negb (is_empty m)) by reflexivity.
    pose proof (B (firstn i word)) as B1. pose proof (B (skipn i word)) as B2.
    destruct (V4.parse_greedy (firstn i word) V4.SLOTS_V4) as [m1 r1] eqn:P1.
    destruct (V4.parse_greedy (skipn i word) V4.SLOTS_V4) as [m2 r2] eqn:P2.
    destruct (is_empty r1), (is_empty m1); simpl in F; try discriminate.
    destruct (is_empty r2), (is_empty m2); simpl in F; try discriminate.
    injection F as <-. cbn [fst snd map concat]. split.
    + repeat constructor; cbn [fst snd]; auto;
        [rewrite P1|rewrite P2]; reflexivity.
    + rewrite app_nil_r. apply firstn_skipn.
Qed.

(** [find_split] finds a split whenever [is_v5] accepts. *)
Lemma find_split_complete (word : str) :
  V5.is_v5 word = true -> V5.find_split word <> [].
Proof.
  unfold V5.is_v5, V5.find_split.
  destruct (V5.is_base word).
  - intros _. rewrite let_fst. discriminate.
  - intros H.
    match goal with |- context [for_first ?b ?l] =>
      assert (Hex : exists r, for_first b l = Some r) end.
    { refine (for_first_complete _ _ _ _ H).
      intros i _. cbv zeta.
      destruct (V5.is_base (firstn i word)); simpl; [|discriminate].
      rewrite let_fst.
      destruct (V5.is_base (skipn i word)).
      - rewrite let_fst. eauto.
      - apply for_first_complete. intros j _. cbv zeta.
        destruct (V5.is_base (firstn j (skipn i word))); simpl; [|discriminate].
        destruct (V5.is_base (skipn j (skipn i word))); simpl; [|discriminate].
        rewrite !let_fst. eauto. }
    destruct Hex as [parts F]. rewrite F.
    apply for_first_Some in F as (i & _ & F). cbv zeta in F.
    destruct (V5.is_base (firstn i word)); simpl in F; [|discriminate].
    rewrite let_fst in F.
    destruct (V5.is_base (skipn i word)).
    + rewrite let_fst in F. injection F as <-. discriminate.
    + apply for_first_Some in F as (j & _ & F). cbv zeta in F.
      destruct (V5.is_base (firstn j (skipn i word))); simpl in F;
        [|discriminate].
      destruct (V5.is_base (skipn j (skipn i word))); simpl in F;
        [|discriminate].
      rewrite !let_fst in F. injection F as <-. discriminate.
Qed.

(** A full-matching first block followed by a remainder that fits the rest
    of the budget is found, wherever the split point lies. *)
Lemma splits_cons (base : str -> bool) (n : nat) (p rest : str) :
  base [] = false ->
  base p = true -> segmentation base (S n) rest ->
  splits base (S n) (p ++ rest).
Proof.
  intros Hnil Hp Hseg. right. exists p, rest. repeat split; auto.
  - apply base_nonempty with (base := base); auto.
  - destruct Hseg as (bs & [Hl _] & Hf & <-).
    apply concat_nonempty with (base := base); auto. destruct bs; simpl in *; [lia|discriminate].
  - apply segmentation_splits; auto.
Qed.

(** C3, as the code has it. The searches do not commit to the leftmost
    full-matching prefix: every split point whose prefix full-matches is
    tried in turn.  For every full-matching first block [p], leftmost or not,
    [is_v6] accepts [p] followed by any concatenation of at most three
    full-matching blocks, and [find_split] returns a split of [p] followed by
    any concatenation of at most two. *)
Theorem search_tries_every_first_block :
  forall p rest : str,
    V6.is_base p = true ->
    (segmentation V6.is_base 3 rest -> V6.is_v6 (p ++ rest) = true) /\
    (segmentation V5.is_base 2 rest -> V5.find_split (p ++ rest) <> []).
Proof.
  intros p rest Hp. split; intros Hseg.
  - rewrite is_v6_search4. apply search4_spec.
    apply splits_cons; auto.
  - apply find_split_complete. rewrite is_v5_search3. apply search3_spec.
    apply splits_cons; auto.
Qed.

Lemma aiin_blocks (n : nat) :
  segmentation V6.is_base (S n) (concat (repeat (lit "aiin") (S n))).
Proof.
  exists (repeat (lit "aiin") (S n)). rewrite repeat_length.
  repeat split; auto with arith.
  apply Forall_forall. intros b Hb. apply repeat_spec in Hb as ->.
  split; [discriminate|reflexivity].
Qed.

Lemma search_tries_every_first_block_witness :
  V6.is_base (lit "aiin") = true /\
  V6.is_v6 (lit "aiin" ++ lit "aiinaiinaiin") = true /\
  V5.find_split (lit "aiin" ++ lit "aiinaiin") <> [].
Proof.
  split; [reflexivity|]. split.
  - apply (search_tries_every_first_block (lit "aiin") (lit "aiinaiinaiin"));
      [reflexivity|exact (aiin_blocks 2)].
  - apply (search_tries_every_first_block (lit "aiin") (lit "aiinaiin"));
      [reflexivity|exact (aiin_blocks 1)].
Defined.

(** C3, as the specification states it, fails: no word that decomposes into
    at most four (for [find_split], three) full-matching blocks is reported
    as not matching.  On [aiinaiinaiinaiin] the leftmost full-matching prefix
    [a] leaves a remainder that three blocks cannot cover, and the search
    goes on to the first block [aiin] and accepts. *)
Lemma search_commits_to_leftmost_refuted :
  ~ (exists word, segmentation V6.is_base 4 word /\ V6.is_v6 word = false) /\
  ~ (exists word, segmentation V5.is_base 3 word /\ V5.find_split word = []) /\
  (V6.is_base (lit "a") = true /\
   V5.is_v5 (lit "iinaiinaiinaiin") = false /\
   V6.is_v6 (lit "aiinaiinaiinaiin") = true).
Proof.
  split; [|split].
  - intros (word & Hseg & H).
    apply (search4_segmentation V6.is_base is_base_v6_nil) in Hseg.
    rewrite <- is_v6_search4 in Hseg. congruence.
  - intros (word & Hseg & H).
    apply (search3_segmentation V5.is_base is_base_v6_nil) in Hseg.
    change (V5.is_v5 word = true) in Hseg.
    apply find_split_complete in Hseg. congruence.
  - repeat split; reflexivity.
Qed.

(** *** The empty string *)

(** C8. On the empty string [parse_greedy] returns the empty parse and the
    empty leftover, under every grammar, and neither [is_match] nor any of the
    segmentation searches accepts it. *)
Theorem empty_string_not_accepted :
  V1.parse_greedy (lit "") = ([], lit "") /\
  V1.is_match (lit "") = false /\
  V6.is_v6 (lit "") = false /\
  (forall slots : Grammar,
      V2.parse_greedy (lit "") slots = ([], lit "") /\
      V2.is_match (lit "") slots = false) /\
  fst (V4.is_v4_match (lit "")) = false /\
  V5.is_v5 (lit "") = false /\ V5.find_split (lit "") = [] /\
  V7.is_v7 (lit "") = false /\ V8.is_v8 (lit "") = false.
Proof.
  repeat match goal with |- _ /\ _ => split end; try reflexivity.
  intros slots. destruct slots; split; reflexivity.
Qed.

(** *** Extending a slot by an option the word cannot use *)

Lemma startswith_head (w o : str) (c : char) (pos : nat) :
  startswith w (c :: o) pos = true -> In c w.
Proof.
  unfold startswith. intros H. apply andb_true_iff in H as [_ H].
  apply is_prefix_app in H as [tail H].
  rewrite <- (firstn_skipn pos w), H. apply in_or_app. right. left. reflexivity.
Qed.

Lemma first_option_app_absent (w : str) (pos : nat) (s : Slot) (z : str) :
  startswith w z pos = false ->
  first_option w pos (s ++ [z]) = first_option w pos s.
Proof.
  intros Hz. induction s as [|o s IH]; simpl.
  - now rewrite Hz.
  - destruct (startswith w o pos); auto.
Qed.

Lemma parse_loop_append_option (w z : str) (pre : Grammar) (s : Slot)
    (post : Grammar) :
  (forall pos, startswith w z pos = false) ->
  forall slot_idx pos matched,
    parse_loop w (pre ++ (s ++ [z]) :: post) slot_idx pos matched =
    parse_loop w (pre ++ s :: post) slot_idx pos matched.
Proof.
  intros Hz. induction pre as [|o pre IH]; intros idx pos m; simpl.
  - rewrite first_option_app_absent by apply Hz. reflexivity.
  - destruct (length w <=? pos); auto.
    destruct (first_option w pos o); apply IH.
Qed.

(** A parse that leaves nothing spells the word with options of the
    grammar. *)
Lemma full_parse_spells (w : str) (slots : Grammar) (m : Matched) (pos : nat) :
  parse_loop w slots 0 0 [] = (m, pos) ->
  skipn pos w = [] ->
  w = concat (map snd m) /\
  forall p, In p (map snd m) -> In p (concat slots).
Proof.
  intros E Hr. split.
  - apply parse_loop_consumed in E as [_ E]; simpl; auto with arith.
    rewrite E. rewrite <- (firstn_skipn pos w) at 1. rewrite Hr. apply app_nil_r.
  - intros p Hp. apply in_map_iff in Hp as ([i p'] & <- & Hin). simpl.
    destruct (parse_loop_in_slot _ _ _ _ _ _ _ E _ _ Hin) as [[]|(o & Hn & _ & Ho)].
    apply in_concat. exists o. split; auto.
    eapply nth_error_In; eauto.
Qed.

Lemma slots_v7_without_z :
  forallb (fun p => negb (existsb (N.eqb char_z) p)) (concat V7.SLOTS_V7) = true.
Proof. reflexivity. Qed.

(** A word that version 7 matches in one pass has no [z]. *)
Lemma is_base_v7_no_z (w : str) : V7.is_base w = true -> ~ In char_z w.
Proof.
  unfold V7.is_base, V7.parse_greedy.
  destruct (parse_loop w V7.SLOTS_V7 0 0 []) as [m pos] eqn:E.
  intros H Hz. apply andb_true_iff in H as [H _].
  assert (Hr : skipn pos w = []) by (destruct (skipn pos w); [auto|discriminate]).
  destruct (full_parse_spells _ _ _ _ E Hr) as [Hw Hp].
  rewrite Hw in Hz. apply in_concat in Hz as (p & Hpm & Hzp).
  apply Hp in Hpm.
  pose proof slots_v7_without_z as F. rewrite forallb_forall in F.
  apply F in Hpm. apply negb_true_iff in Hpm.
  assert (existsb (N.eqb char_z) p = true)
    by (apply existsb_exists; exists char_z; split; [auto|apply N.eqb_refl]).
  congruence.
Qed.

(** Version 8 is version 7 with [z] appended to slot 1, and parses a word
    without [z] as version 7 does. *)
Lemma slots_v8_extends_v7 :
  V7.SLOTS_V7 =
    firstn 1 V7.SLOTS_V7 ++ nth 1 V7.SLOTS_V7 [] :: skipn 2 V7.SLOTS_V7 /\
  V8.SLOTS_V8 =
    firstn 1 V7.SLOTS_V7 ++ (nth 1 V7.SLOTS_V7 [] ++ [lit "z"])
      :: skipn 2 V7.SLOTS_V7.
Proof. split; reflexivity. Qed.

Lemma parse_greedy_v8_v7 (w : str) :
  ~ In char_z w -> V8.parse_greedy w = V7.parse_greedy w.
Proof.
  intros Hz. unfold V8.parse_greedy, V7.parse_greedy.
  destruct slots_v8_extends_v7 as [E7 E8].
  rewrite E8. rewrite E7 at 4.
  rewrite parse_loop_append_option; [reflexivity|].
  intros pos. destruct (startswith w (lit "z") pos) eqn:S; [|reflexivity].
  exfalso. apply Hz. exact (startswith_head _ _ _ _ S).
Qed.

Lemma is_base_v7_v8 (w : str) : V7.is_base w = true -> V8.is_base w = true.
Proof.
  intros H. unfold V8.is_base.
  rewrite parse_greedy_v8_v7 by (apply is_base_v7_no_z; exact H). exact H.
Qed.

Lemma splits_base_mono (b1 b2 : str -> bool) :
  (forall w, b1 w = true -> b2 w = true) ->
  forall n w, splits b1 n w -> splits b2 n w.
Proof.
  intros Hb. induction n as [|n IH]; intros w H; simpl in *; auto.
  destruct H as [H|(p & r & Hp & Hr & Hw & Hbp & H)]; auto.
  right. exists p, r. repeat split; auto.
Qed.

(** C10. For every word, if [is_v7] accepts it then [is_v8] accepts it: a
    block that version 7 matches in one pass holds no [z], and version 8,
    which only adds [z] at the end of slot 1, parses it the same way. *)
Theorem is_v7_implies_is_v8 :
  forall word : str, V7.is_v7 word = true -> V8.is_v8 word = true.
Proof.
  intros word H.
  rewrite is_v8_search4. rewrite is_v7_search4 in H.
  apply search4_spec. apply search4_spec in H.
  revert H. apply splits_base_mono. exact is_base_v7_v8.
Qed.

Lemma is_v7_implies_is_v8_witness :
  V7.is_v7 (lit "vaiinchedy") = true /\ V8.is_v8 (lit "vaiinchedy") = true.
Proof.
  split; [reflexivity|].
  apply (is_v7_implies_is_v8 (lit "vaiinchedy")). reflexivity.
Defined.

(** *** The unknown-character diagnostic *)

Lemma in_insert_by_len (o x : str) (l : list str) :
  In o (V1.insert_by_len x l) <-> x = o \/ In o l.
Proof.
  induction l as [|y l IH]; simpl; [tauto|].
  destruct (length y <=? length x); simpl; [tauto|]. rewrite IH. tauto.
Qed.

Lemma in_sorted_by_len (o : str) (l : list str) :
  In o (V1.sorted_by_len l) <-> In o l.
Proof.
  induction l as [|x l IH]; simpl; [tauto|].
  rewrite in_insert_by_len, IH. tauto.
Qed.

Lemma first_option_None (w : str) (pos : nat) (l : list str) :
  (forall o, In o l -> startswith w o pos = false) ->
  first_option w pos l = None.
Proof.
  induction l as [|o l IH]; simpl; intros H; [reflexivity|].
  rewrite (H o) by auto. apply IH. auto.
Qed.

Lemma all_options_nonempty : forall o, In o V1.ALL_OPTIONS -> o <> [].
Proof.
  assert (F : forallb (fun o => negb (is_empty o)) V1.ALL_OPTIONS = true)
    by reflexivity.
  rewrite forallb_forall in F. intros o Ho ->. apply F in Ho. discriminate.
Qed.

(** The loop ends within [len(text) - i + 1] iterations when no option is
    empty. *)
Lemma unknown_loop_total (options : list str) (text : str) :
  (forall o, In o options -> o <> []) ->
  forall fuel i result,
    length text - i < fuel ->
    exists r, V1.unknown_loop fuel options text i result = Some r.
Proof.
  intros Hne. induction fuel as [|fuel IH]; intros i result Hf; [lia|].
  simpl. destruct (i <? length text) eqn:E; [|eauto].
  apply Nat.ltb_lt in E.
  destruct (first_option text i (V1.sorted_by_len options)) as [opt|] eqn:F.
  - apply first_option_startswith in F as [F _].
    apply in_sorted_by_len, Hne, nonempty_length in F.
    apply IH. lia.
  - apply IH. lia.
Qed.

Lemma unknown_chars_in_total (text : str) :
  exists r, V1.unknown_chars_in text = Some r.
Proof.
  apply unknown_loop_total; [exact all_options_nonempty|lia].
Qed.

(** No option occurs at the start of the one-character string [c]. *)
Lemma no_option_starts_c :
  forall o, In o V1.ALL_OPTIONS -> startswith (lit "c") o 0 = false.
Proof.
  assert (F : forallb (fun o => negb (startswith (lit "c") o 0)) V1.ALL_OPTIONS
              = true) by reflexivity.
  rewrite forallb_forall in F. intros o Ho. apply F in Ho.
  now apply negb_true_iff in Ho.
Qed.

(** Whatever order the set of options is iterated in, [c] alone is flagged. *)
Lemma unknown_chars_c_any_order (options : list str) :
  Permutation options V1.ALL_OPTIONS ->
  V1.unknown_chars_over options (lit "c") = Some (lit "c").
Proof.
  intros HP. unfold V1.unknown_chars_over.
  change (length (lit "c")) with 1. unfold V1.unknown_loop.
  change (0 <? length (lit "c")) with true. cbv iota.
  rewrite first_option_None; [reflexivity|].
  intros o Ho. apply (proj1 (in_sorted_by_len _ _)) in Ho.
  apply no_option_starts_c. exact (Permutation_in _ HP Ho).
Qed.

(** C7 fails on the code. On the text [c], [unknown_chars_in] returns the
    character [c] as unknown, and [c] occurs in the option [ch] of slot 5
    (as in every option of slot 6). *)
Theorem unknown_chars_in_flags_pattern_char :
  V1.unknown_chars_in (lit "c") = Some (lit "c") /\
  nth_error V1.SLOTS 5 = Some [lit "ch"; lit "sh"] /\
  In (lit "ch") V1.ALL_OPTIONS /\
  In (N_of_ascii "c") (lit "ch").
Proof.
  split; [reflexivity|]. split; [reflexivity|]. split.
  - vm_compute. tauto.
  - left. reflexivity.
Qed.

(** ** Further properties of the greedy parser *)

Lemma skipn_nil_length {A : Type} (n : nat) (l : list A) :
  skipn n l = [] -> length l <= n.
Proof.
  intros H. pose proof (length_skipn n l) as L. rewrite H in L. simpl in L. lia.
Qed.

Lemma is_empty_true {A : Type} (l : list A) : is_empty l = true -> l = [].
Proof. destruct l; [reflexivity|discriminate]. Qed.

Lemma is_match_inv (word : str) (slots : Grammar) :
  V2.is_match word slots = true ->
  exists m pos, parse_loop word slots 0 0 [] = (m, pos) /\
                skipn pos word = [] /\ m <> [].
Proof.
  unfold V2.is_match, V2.parse_greedy.
  destruct (parse_loop word slots 0 0 []) as [m pos].
  intros H. apply andb_true_iff in H as [Hr Hm].
  exists m, pos. repeat split; auto using is_empty_true.
  intros ->. discriminate.
Qed.

(** X1. Every pair [(i, p)] that [parse_greedy] returns names a slot of the
    grammar and one of that slot's own options: [i] is a valid index into
    [slots] and [p] is listed in [slots[i]]. *)
Theorem matched_options_from_slots :
  forall (slots : Grammar) (word : str) (i : nat) (p : str),
    In (i, p) (fst (V2.parse_greedy word slots)) ->
    exists options, nth_error slots i = Some options /\ In p options.
Proof.
  intros slots word i p. unfold V2.parse_greedy.
  destruct (parse_loop word slots 0 0 []) as [m pos] eqn:E. simpl. intros Hin.
  destruct (parse_loop_in_slot _ _ _ _ _ _ _ E _ _ Hin) as [[]|(o & Hn & _ & Ho)].
  rewrite Nat.sub_0_r in Hn. eauto.
Qed.

Lemma matched_options_from_slots_witness :
  exists options,
    nth_error V2.SLOTS_V2 11 = Some options /\ In (lit "ii") options.
Proof.
  apply (matched_options_from_slots V2.SLOTS_V2 (lit "daiin") 11 (lit "ii")).
  vm_compute. tauto.
Defined.

(** *** The loop as a recursion on the unread suffix *)

Lemma startswith_skipn (word o : str) (pos : nat) :
  pos <= length word ->
  startswith (skipn pos word) o 0 = startswith word o pos.
Proof.
  intros H. unfold startswith. simpl.
  apply Nat.leb_le in H. now rewrite H.
Qed.

Lemma first_option_skipn (word : str) (pos : nat) (options : Slot) :
  pos <= length word ->
  first_option (skipn pos word) 0 options = first_option word pos options.
Proof.
  intros H. induction options as [|o options IH]; simpl; [reflexivity|].
  rewrite startswith_skipn, IH by exact H. reflexivity.
Qed.

Lemma parse_loop_rec (word : str) (slots : Grammar) :
  forall slot_idx pos m m' pos',
    parse_loop word slots slot_idx pos m = (m', pos') ->
    pos <= length word ->
    exists m'', m' = m ++ m'' /\
                parse_rec slots slot_idx (skipn pos word) = (m'', skipn pos' word).
Proof.
  induction slots as [|options slots IH]; simpl; intros idx pos m m' pos' H Hle.
  - injection H as <- <-. exists []. now rewrite app_nil_r.
  - destruct (length word <=? pos) eqn:Hb.
    + injection H as <- <-. apply Nat.leb_le in Hb.
      rewrite (skipn_all2 word) by exact Hb. simpl.
      exists []. now rewrite app_nil_r.
    + apply Nat.leb_gt in Hb.
      assert (Hne : is_empty (skipn pos word) = false).
      { destruct (skipn pos word) eqn:S; [|reflexivity].
        apply skipn_nil_length in S. lia. }
      rewrite Hne, first_option_skipn by exact Hle.
      destruct (first_option word pos options) as [o|] eqn:F.
      * apply first_option_startswith in F as [_ F].
        apply startswith_advance in F as [Hle' _].
        destruct (IH _ _ _ _ _ H Hle') as (m'' & -> & Hr).
        rewrite skipn_skipn, (Nat.add_comm (length o) pos), Hr.
        exists ((idx, o) :: m''). split; [|reflexivity].
        now rewrite <- app_assoc.
      * destruct (IH _ _ _ _ _ H Hle) as (m'' & -> & Hr). eauto.
Qed.

(** X2. The loop with its cursor and accumulator computes the parse that
    recursion on the slots and the unread suffix defines: at each slot the
    first option that prefixes the suffix is taken and the rest of the
    grammar parses what follows it, so a parse depends on the consumed
    prefix only through the slot index reached. *)
Theorem parse_greedy_recursive :
  forall (slots : Grammar) (word : str),
    V2.parse_greedy word slots = parse_rec slots 0 word.
Proof.
  intros slots word. unfold V2.parse_greedy.
  destruct (parse_loop word slots 0 0 []) as [m pos] eqn:E.
  apply parse_loop_rec in E as (m'' & -> & Hr); [|lia].
  simpl in Hr. rewrite Hr. reflexivity.
Qed.

(** *** What a full match says about the word *)

(** X3. A word that is a full match is written in the grammar's alphabet:
    each of its characters occurs in some option of some slot.  A word
    holding any other character is never a full match. *)
Theorem full_match_alphabet :
  forall (slots : Grammar) (word : str) (c : char),
    V2.is_match word slots = true ->
    In c word ->
    exists o, In o (concat slots) /\ In c o.
Proof.
  intros slots word c H Hc.
  apply is_match_inv in H as (m & pos & E & Hr & _).
  destruct (full_parse_spells _ _ _ _ E Hr) as [Hw Hp].
  rewrite Hw in Hc. apply in_concat in Hc as (o & Ho & Hco).
  exists o. auto.
Qed.

Lemma full_match_alphabet_witness :
  exists o, In o (concat V2.SLOTS_V2) /\ In (N_of_ascii "n") o.
Proof.
  apply (full_match_alphabet V2.SLOTS_V2 (lit "daiin") (N_of_ascii "n")).
  - reflexivity.
  - vm_compute. tauto.
Defined.

Lemma max_option_len_ge (options : Slot) (o : str) :
  In o options -> length o <= max_option_len options.
Proof.
  induction options as [|a options IH]; simpl; [tauto|].
  intros [->|H]; [lia|]. apply IH in H. lia.
Qed.

Lemma parse_loop_bound (word : str) (slots : Grammar) :
  forall slot_idx pos m m' pos',
    parse_loop word slots slot_idx pos m = (m', pos') ->
    pos' <= pos + list_sum (map max_option_len slots) /\
    length m' <= length m + length slots.
Proof.
  induction slots as [|options slots IH]; simpl; intros idx pos m m' pos' H.
  - injection H as <- <-. lia.
  - destruct (length word <=? pos).
    + injection H as <- <-. lia.
    + destruct (first_option word pos options) as [o|] eqn:F.
      * apply first_option_startswith in F as [F _].
        apply max_option_len_ge in F.
        apply IH in H. rewrite length_app in H. simpl in H. lia.
      * apply IH in H. lia.
Qed.

(** X4. A parse uses each slot at most once, so it has at most as many pairs
    as the grammar has slots; and a word that is a full match is no longer
    than the longest options of all slots put together. *)
Theorem full_match_length_bound :
  forall (slots : Grammar) (word : str),
    length (fst (V2.parse_greedy word slots)) <= length slots /\
    (V2.is_match word slots = true ->
     length word <= list_sum (map max_option_len slots)).
Proof.
  intros slots word. split.
  - unfold V2.parse_greedy.
    destruct (parse_loop word slots 0 0 []) as [m pos] eqn:E.
    apply parse_loop_bound in E. simpl in *. lia.
  - intros H. apply is_match_inv in H as (m & pos & E & Hr & _).
    apply parse_loop_bound in E. apply skipn_nil_length in Hr. lia.
Qed.

Lemma full_match_length_bound_witness :
  length (lit "daiin") <= list_sum (map max_option_len V2.SLOTS_V2).
Proof.
  apply (full_match_length_bound V2.SLOTS_V2 (lit "daiin")). reflexivity.
Defined.

(** *** Growing the grammar *)

Lemma parse_loop_app (word : str) (slots more : Grammar) :
  forall slot_idx pos m,
    parse_loop word (slots ++ more) slot_idx pos m =
    let '(m1, pos1) := parse_loop word slots slot_idx pos m in
    parse_loop word more (slot_idx + length slots) pos1 m1.
Proof.
  induction slots as [|options slots IH]; simpl; intros idx pos m.
  - now rewrite Nat.add_0_r.
  - destruct (length word <=? pos) eqn:Hb.
    + destruct more; simpl; [reflexivity|]. now rewrite Hb.
    + destruct (first_option word pos options);
        rewrite IH, Nat.add_succ_comm; reflexivity.
Qed.

Lemma parse_loop_exhausted (word : str) (slots : Grammar) (slot_idx pos : nat)
    (m : Matched) :
  length word <= pos -> parse_loop word slots slot_idx pos m = (m, pos).
Proof.
  intros H. destruct slots; simpl; [reflexivity|].
  apply Nat.leb_le in H. now rewrite H.
Qed.

(** X5. Slots added at the end of a grammar are not reached by a word the
    grammar already matches in full: its parse stays the same and it is
    still a full match. *)
Theorem appended_slots_keep_full_match :
  forall (slots more : Grammar) (word : str),
    V2.is_match word slots = true ->
    V2.parse_greedy word (slots ++ more) = V2.parse_greedy word slots /\
    V2.is_match word (slots ++ more) = true.
Proof.
  intros slots more word H.
  assert (P : V2.parse_greedy word (slots ++ more) = V2.parse_greedy word slots).
  { apply is_match_inv in H as (m & pos & E & Hr & _).
    unfold V2.parse_greedy. rewrite parse_loop_app, E.
    rewrite parse_loop_exhausted by (apply skipn_nil_length; exact Hr).
    reflexivity. }
  split; [exact P|]. unfold V2.is_match. rewrite P. exact H.
Qed.

Lemma appended_slots_keep_full_match_witness :
  V2.parse_greedy (lit "sh") ([[lit "s"]; [lit "h"]] ++ [[lit "h"]])
  = V2.parse_greedy (lit "sh") [[lit "s"]; [lit "h"]].
Proof.
  apply (appended_slots_keep_full_match [[lit "s"]; [lit "h"]] [[lit "h"]]
           (lit "sh")).
  reflexivity.
Defined.

(** *** A new option at the end of a slot *)

Lemma first_option_app_Some (w : str) (pos : nat) (s l : Slot) (o : str) :
  first_option w pos s = Some o -> first_option w pos (s ++ l) = Some o.
Proof.
  induction s as [|a s IH]; simpl; [discriminate|].
  destruct (startswith w a pos); auto.
Qed.

Lemma first_option_app_None (w : str) (pos : nat) (s l : Slot) :
  first_option w pos s = None ->
  first_option w pos (s ++ l) = first_option w pos l.
Proof.
  induction s as [|a s IH]; simpl; [reflexivity|].
  destruct (startswith w a pos); [discriminate|auto].
Qed.

Lemma startswith_char_at (w z' : str) (c : char) (pos : nat) :
  startswith w (c :: z') pos = true -> exists tail, skipn pos w = c :: tail.
Proof.
  unfold startswith. intros H. apply andb_true_iff in H as [_ H].
  apply is_prefix_app in H as [tail H]. rewrite H. simpl. eauto.
Qed.

(** With the cursor on a character that starts no option of the slots still
    to come, the cursor does not move again. *)
Lemma parse_loop_stuck (w : str) (c : char) (tail : str) (post : Grammar) :
  forallb (fun o => negb (starts_with_char c o)) (concat post) = true ->
  forall slot_idx pos m m' pos',
    skipn pos w = c :: tail ->
    parse_loop w post slot_idx pos m = (m', pos') -> pos' = pos.
Proof.
  induction post as [|options post IH]; simpl; intros Hf idx pos m m' pos' Hc H.
  - now injection H as _ <-.
  - rewrite forallb_app in Hf. apply andb_true_iff in Hf as [Ho Hf].
    destruct (length w <=? pos); [now injection H as _ <-|].
    destruct (first_option w pos options) as [o|] eqn:F.
    + apply first_option_startswith in F as [Hin F].
      rewrite forallb_forall in Ho. apply Ho in Hin.
      destruct o as [|a o].
      * simpl in H. rewrite Nat.add_0_r in H. eapply IH; eauto.
      * exfalso. apply startswith_char_at in F as [t F].
        rewrite Hc in F. injection F as F _. subst a.
        simpl in Hin. rewrite N.eqb_refl in Hin. discriminate.
    + eapply IH; eauto.
Qed.

Lemma parse_loop_append_option_full (w z' : str) (c : char) (s : Slot)
    (post : Grammar) :
  forallb (fun o => negb (starts_with_char c o)) (concat post) = true ->
  forall (pre : Grammar) slot_idx pos m m' pos',
    parse_loop w (pre ++ s :: post) slot_idx pos m = (m', pos') ->
    skipn pos' w = [] ->
    parse_loop w (pre ++ (s ++ [c :: z']) :: post) slot_idx pos m = (m', pos').
Proof.
  intros Hf. induction pre as [|o pre IH]; simpl; intros idx pos m m' pos' H Hr.
  - destruct (length w <=? pos) eqn:Hb; [exact H|].
    destruct (first_option w pos s) as [o|] eqn:F.
    + now rewrite (first_option_app_Some _ _ _ _ _ F).
    + rewrite (first_option_app_None _ _ _ _ F). simpl.
      destruct (startswith w (c :: z') pos) eqn:S; [|exact H].
      exfalso. apply startswith_char_at in S as [tail S].
      pose proof (parse_loop_stuck _ _ _ _ Hf _ _ _ _ _ S H) as ->.
      rewrite Hr in S. discriminate.
  - destruct (length w <=? pos); [exact H|].
    destruct (first_option w pos o); apply IH; auto.
Qed.

(** X6. Appending an option to the end of a slot breaks no full match,
    provided no later slot has an option that starts with the new option's
    first character: every word the old grammar matched in full gets the same
    parse from the new grammar. *)
Theorem appended_option_keeps_full_match :
  forall (pre : Grammar) (s : Slot) (post : Grammar) (c : char) (z' word : str),
    forallb (fun o => negb (starts_with_char c o)) (concat post) = true ->
    V2.is_match word (pre ++ s :: post) = true ->
    V2.parse_greedy word (pre ++ (s ++ [c :: z']) :: post)
      = V2.parse_greedy word (pre ++ s :: post) /\
    V2.is_match word (pre ++ (s ++ [c :: z']) :: post) = true.
Proof.
  intros pre s post c z' word Hf H.
  assert (P : V2.parse_greedy word (pre ++ (s ++ [c :: z']) :: post)
              = V2.parse_greedy word (pre ++ s :: post)).
  { apply is_match_inv in H as (m & pos & E & Hr & _).
    unfold V2.parse_greedy. rewrite E.
    now rewrite (parse_loop_append_option_full _ _ _ _ _ Hf _ _ _ _ _ _ E Hr). }
  split; [exact P|]. unfold V2.is_match. rewrite P. exact H.
Qed.

Lemma appended_option_keeps_full_match_witness :
  V2.is_match (lit "sh") ([[lit "s"]] ++ ([lit "h"] ++ [lit "c"]) :: [[lit "y"]])
  = true.
Proof.
  apply (appended_option_keeps_full_match [[lit "s"]] [lit "h"] [[lit "y"]]
           (N_of_ascii "c") [] (lit "sh")); reflexivity.
Defined.

(** The same at the level of the full-match test of the later versions. *)
Lemma full_match_is_match (slots : Grammar) (word : str) :
  full_match slots word = V2.is_match word slots.
Proof.
  unfold full_match, V2.is_match.
  destruct (V2.parse_greedy word slots) as [m r].
  destruct m; reflexivity.
Qed.

Lemma full_match_appended_option (slots slots' : Grammar) (pre : Grammar)
    (s : Slot) (post : Grammar) (c : char) (z' : str) :
  slots = pre ++ s :: post ->
  slots' = pre ++ (s ++ [c :: z']) :: post ->
  forallb (fun o => negb (starts_with_char c o)) (concat post) = true ->
  forall w, full_match slots w = true -> full_match slots' w = true.
Proof.
  intros -> -> Hf w H. rewrite full_match_is_match in *.
  apply is_match_inv in H as (m & pos & E & Hr & Hm).
  unfold V2.is_match, V2.parse_greedy.
  rewrite (parse_loop_append_option_full _ _ _ _ _ Hf _ _ _ _ _ _ E Hr).
  rewrite Hr. destruct m; [congruence|reflexivity].
Qed.

(** X7. Version 2 adds [h] to slot 1 of version 1 and loses nothing: every
    word that the first grammar matches is matched by the second, with the
    same parse, so the words version 2's comparison counts as newly matched
    are exactly the difference of the two matched sets. *)
Theorem v1_match_is_v2_match :
  forall word : str,
    V2.is_match word V2.SLOTS_V1 = true ->
    V2.parse_greedy word V2.SLOTS_V2 = V2.parse_greedy word V2.SLOTS_V1 /\
    V2.is_match word V2.SLOTS_V2 = true.
Proof.
  intros word H.
  change V2.SLOTS_V2 with
    (firstn 1 V2.SLOTS_V1 ++
       (nth 1 V2.SLOTS_V1 [] ++ [N_of_ascii "h" :: []]) :: skipn 2 V2.SLOTS_V1).
  apply appended_option_keeps_full_match; [reflexivity|exact H].
Qed.

Lemma v1_match_is_v2_match_witness :
  V2.is_match (lit "daiin") V2.SLOTS_V2 = true.
Proof.
  apply (v1_match_is_v2_match (lit "daiin")). reflexivity.
Defined.

(** ** Further properties of the segmentation searches *)

Lemma is_base_full_match :
  (forall w, V4.is_v4_base w = full_match V4.SLOTS_V4 w) /\
  (forall w, V5.is_base w = full_match V5.SLOTS_V4 w) /\
  (forall w, V6.is_base w = full_match V6.SLOTS_V4 w) /\
  (forall w, V7.is_base w = full_match V7.SLOTS_V7 w) /\
  (forall w, V8.is_base w = full_match V8.SLOTS_V8 w).
Proof. repeat split; reflexivity. Qed.

Lemma full_match_nil (slots : Grammar) : full_match slots [] = false.
Proof. destruct slots; reflexivity. Qed.

(** X8. [is_v5] answers [True] exactly for the words that are a
    concatenation of one, two or three non-empty blocks each accepted by
    [is_base]. *)
Theorem is_v5_complete :
  forall word : str,
    V5.is_v5 word = true <-> segmentation V5.is_base 3 word.
Proof.
  intros word. rewrite is_v5_search3.
  apply search3_segmentation. reflexivity.
Qed.

(** X9. [is_v7] and [is_v8] answer [True] exactly for the words that are a
    concatenation of between one and four non-empty blocks each accepted by
    the [is_base] of their own grammar. *)
Theorem is_v7_is_v8_complete :
  forall word : str,
    (V7.is_v7 word = true <-> segmentation V7.is_base 4 word) /\
    (V8.is_v8 word = true <-> segmentation V8.is_base 4 word).
Proof.
  intros word. split.
  - rewrite is_v7_search4. apply search4_segmentation. reflexivity.
  - rewrite is_v8_search4. apply search4_segmentation. reflexivity.
Qed.

(** X10. Version 7 adds [v] to slot 0 of the grammar of version 6 and loses
    nothing: every word [is_v6] accepts is accepted by [is_v7]. *)
Theorem is_v6_implies_is_v7 :
  forall word : str, V6.is_v6 word = true -> V7.is_v7 word = true.
Proof.
  intros word H.
  rewrite is_v7_search4. rewrite is_v6_search4 in H.
  apply search4_spec. apply search4_spec in H.
  revert H. apply splits_base_mono.
  apply (full_match_appended_option V6.SLOTS_V4 V7.SLOTS_V7 []
           (nth 0 V6.SLOTS_V4 []) (skipn 1 V6.SLOTS_V4) (N_of_ascii "v") []);
    reflexivity.
Qed.

Lemma is_v6_implies_is_v7_witness :
  V7.is_v7 (lit "aiinaiinaiinaiin") = true.
Proof.
  apply (is_v6_implies_is_v7 (lit "aiinaiinaiinaiin")). reflexivity.
Defined.

(** *** The two-block searches of versions 3 and 4 *)

Lemma for_first_None {A : Type} (body : nat -> option A) (l : list nat) :
  for_first body l = None -> forall i, In i l -> body i = None.
Proof.
  induction l as [|a l IH]; simpl; [tauto|].
  destruct (body a) eqn:E; [discriminate|].
  intros H i [<-|Hi]; auto.
Qed.

Lemma existsb_false_iff {A : Type} (g : A -> bool) (l : list A) :
  existsb g l = false <-> forall x, In x l -> g x = false.
Proof.
  induction l as [|a l IH]; simpl; [tauto|].
  rewrite orb_false_iff, IH. split.
  - intros [Ha Hl] x [<-|Hx]; auto.
  - intros H; split; auto.
Qed.

Lemma is_v3_match_match2 (word : str) :
  V3.is_v3_match word = match2 V3.SLOTS_V2 word.
Proof. reflexivity. Qed.

Lemma is_v4_match_match2 (word : str) :
  V4.is_v4_match word = match2 V4.SLOTS_V4 word.
Proof.
  unfold V4.is_v4_match, V4.is_v4_base, match2.
  change V4.parse_greedy with (fun w s => V2.parse_greedy w s). cbv beta.
  destruct (V2.parse_greedy word V4.SLOTS_V4) as [m r]. reflexivity.
Qed.

(** The three ways [match2] returns. *)
Lemma match2_cases (slots : Grammar) (word : str) :
  (full_match slots word = true /\
   match2 slots word = (true, [(word, fst (V2.parse_greedy word slots))])) \/
  (full_match slots word = false /\
   exists i, In i (range1 (length word)) /\
     full_match slots (firstn i word) = true /\
     full_match slots (skipn i word) = true /\
     match2 slots word =
       (true, [(firstn i word, fst (V2.parse_greedy (firstn i word) slots));
               (skipn i word, fst (V2.parse_greedy (skipn i word) slots))])) \/
  (full_match slots word = false /\
   (forall i, In i (range1 (length word)) ->
      full_match slots (firstn i word) && full_match slots (skipn i word)
      = false) /\
   match2 slots word = (false, [])).
Proof.
  unfold match2, full_match.
  destruct (V2.parse_greedy word slots) as [m r].
  destruct (is_empty r && negb (is_empty m)); [left; auto|right].
  match goal with |- context [for_first ?b ?l] =>
    destruct (for_first b l) as [res|] eqn:F end.
  - left. split; [reflexivity|].
    apply for_first_Some in F as (i & Hi & F). exists i. split; [exact Hi|].
    cbv zeta in F.
    destruct (V2.parse_greedy (firstn i word) slots) as [m1 r1].
    destruct (V2.parse_greedy (skipn i word) slots) as [m2 r2].
    destruct (is_empty r1), (is_empty m1); simpl in F; try discriminate.
    destruct (is_empty r2), (is_empty m2); simpl in F; try discriminate.
    injection F as <-. auto.
  - right. split; [reflexivity|]. split; [|reflexivity].
    intros i Hi. apply (for_first_None _ _ F) in Hi. cbv zeta in Hi.
    destruct (V2.parse_greedy (firstn i word) slots) as [m1 r1].
    destruct (V2.parse_greedy (skipn i word) slots) as [m2 r2].
    destruct (is_empty r1), (is_empty m1); simpl in *; try reflexivity.
    destruct (is_empty r2), (is_empty m2); simpl in *;
      try reflexivity; discriminate.
Qed.

Lemma full_match_nonempty (slots : Grammar) (w : str) :
  full_match slots w = true -> w <> [].
Proof. intros H ->. rewrite full_match_nil in H. discriminate. Qed.

Lemma match2_flag (slots : Grammar) (word : str) :
  fst (match2 slots word) = search2 (full_match slots) word.
Proof.
  unfold search2.
  destruct (match2_cases slots word)
    as [[Hb ->]|[(Hb & i & Hi & H1 & H2 & ->)|(Hb & Hn & ->)]];
    rewrite Hb; simpl; [reflexivity| |].
  - symmetry. apply existsb_exists. exists i. split; [exact Hi|].
    now rewrite H1, H2.
  - symmetry. apply existsb_false_iff. exact Hn.
Qed.

Lemma search2_spec (base : str -> bool) (w : str) :
  search2 base w = true <-> splits base 1 w.
Proof.
  unfold search2. destruct (base w) eqn:E.
  - split; [intros _; left; exact E|reflexivity].
  - transitivity (tail_splits base 0 w); [apply last_loop_spec|].
    simpl. split; [intros H; right; exact H|intros [H|H]; [congruence|exact H]].
Qed.

Lemma match2_sound (slots : Grammar) (word : str) :
  (fst (match2 slots word) = true ->
   Forall (fun part =>
             fst part <> [] /\ full_match slots (fst part) = true /\
             snd part = fst (V2.parse_greedy (fst part) slots))
          (snd (match2 slots word)) /\
   concat (map fst (snd (match2 slots word))) = word /\
   1 <= length (snd (match2 slots word)) <= 2) /\
  (fst (match2 slots word) = false -> snd (match2 slots word) = []).
Proof.
  destruct (match2_cases slots word)
    as [[Hb ->]|[(Hb & i & Hi & H1 & H2 & ->)|(Hb & Hn & ->)]]; simpl;
    (split; [intros H|intros H; try discriminate; try reflexivity]).
  - repeat split; auto using app_nil_r.
    repeat constructor; simpl; eauto using full_match_nonempty.
  - repeat split; auto.
    + repeat constructor; simpl; eauto using full_match_nonempty.
    + rewrite app_nil_r. apply firstn_skipn.
  - discriminate.
Qed.

(** X11. When [is_v3_match] answers [True] it returns one or two parts, each
    non-empty and a full match of the version 2 grammar, each carrying its
    own parse, and the parts concatenate to the word; when it answers
    [False] the list of parts is empty. *)
Theorem is_v3_match_sound :
  forall word : str,
    (fst (V3.is_v3_match word) = true ->
     Forall (fun part =>
               fst part <> [] /\ V3.is_v2_match (fst part) = true /\
               snd part = fst (V3.parse_greedy (fst part) V3.SLOTS_V2))
            (snd (V3.is_v3_match word)) /\
     concat (map fst (snd (V3.is_v3_match word))) = word /\
     1 <= length (snd (V3.is_v3_match word)) <= 2) /\
    (fst (V3.is_v3_match word) = false -> snd (V3.is_v3_match word) = []).
Proof.
  intros word. rewrite is_v3_match_match2.
  destruct (match2_sound V3.SLOTS_V2 word) as [Ht Hf]. split; [|exact Hf].
  intros H. destruct (Ht H) as (Hall & Hc & Hl). repeat split; auto; try lia.
  eapply Forall_impl; [|exact Hall]. simpl.
  intros part (Hne & Hb & Hp). repeat split; auto.
  change (V3.is_v2_match (fst part)) with (V2.is_match (fst part) V3.SLOTS_V2).
  now rewrite <- full_match_is_match.
Qed.

Lemma is_v3_match_sound_witness :
  concat (map fst (snd (V3.is_v3_match (lit "daiinshedy")))) = lit "daiinshedy".
Proof.
  apply (proj1 (is_v3_match_sound (lit "daiinshedy"))). reflexivity.
Defined.

(** X12. [is_v3_match] and [is_v4_match] answer [True] exactly for the words
    that are one full match of their grammar or two non-empty full matches
    in a row, whatever the split point. *)
Theorem two_block_match_complete :
  forall word : str,
    (fst (V3.is_v3_match word) = true
     <-> segmentation (full_match V3.SLOTS_V2) 2 word) /\
    (fst (V4.is_v4_match word) = true
     <-> segmentation V4.is_v4_base 2 word).
Proof.
  intros word. split.
  - rewrite is_v3_match_match2, match2_flag, search2_spec.
    split; [apply splits_segmentation|apply segmentation_splits];
      apply full_match_nil.
  - rewrite is_v4_match_match2, match2_flag, search2_spec.
    split; [apply splits_segmentation|apply segmentation_splits];
      apply full_match_nil.
Qed.

(** X13. Version 4 adds [c] to slot 9 of the version 2 grammar and breaks no
    word: whatever [is_v3_match] accepts, [is_v4_match] accepts. *)
Theorem is_v3_match_implies_is_v4_match :
  forall word : str,
    fst (V3.is_v3_match word) = true -> fst (V4.is_v4_match word) = true.
Proof.
  intros word.
  rewrite is_v3_match_match2, is_v4_match_match2, !match2_flag, !search2_spec.
  apply splits_base_mono.
  apply (full_match_appended_option V3.SLOTS_V2 V4.SLOTS_V4
           (firstn 9 V3.SLOTS_V2) (nth 9 V3.SLOTS_V2 [])
           (skipn 10 V3.SLOTS_V2) (N_of_ascii "c") []);
    reflexivity.
Qed.

Lemma is_v3_match_implies_is_v4_match_witness :
  fst (V4.is_v4_match (lit "daiinshedy")) = true.
Proof.
  apply (is_v3_match_implies_is_v4_match (lit "daiinshedy")). reflexivity.
Defined.

(** X14. A word that [is_v4_match] accepts with at most two blocks is
    accepted by [is_v5], which allows three over the same grammar. *)
Theorem is_v4_match_implies_is_v5 :
  forall word : str,
    fst (V4.is_v4_match word) = true -> V5.is_v5 word = true.
Proof.
  intros word.
  rewrite is_v4_match_match2, match2_flag, search2_spec, is_v5_search3,
    search3_spec.
  intros H. apply (splits_segmentation _ (full_match_nil _)) in H.
  apply segmentation_splits.
  apply segmentation_mono with (n := 2); [lia|exact H].
Qed.

Lemma is_v4_match_implies_is_v5_witness :
  V5.is_v5 (lit "daiinshedy") = true.
Proof.
  apply (is_v4_match_implies_is_v5 (lit "daiinshedy")). reflexivity.
Defined.

(** X15. The version 3 test that [main] of version 4 rebuilds, from
    [SLOTS_V4] with slot 9 set back to [s, d], runs on the grammar of
    version 3 and accepts exactly the words [is_v3_match] accepts. *)
Theorem v4_main_is_v3_agrees :
  V4Main.v4_base_slots = Some V3.SLOTS_V2 /\
  forall word : str,
    V4Main.is_v3 V3.SLOTS_V2 word = fst (V3.is_v3_match word).
Proof.
  split; [reflexivity|].
  intros word. rewrite is_v3_match_match2, match2_flag. reflexivity.
Qed.

(** X16. When [is_v4_match] answers [True] it returns one or two parts, each
    non-empty and accepted by [is_v4_base], each carrying its own parse, and
    the parts concatenate to the word; when it answers [False] the list of
    parts is empty. *)
Theorem is_v4_match_parts :
  forall word : str,
    (fst (V4.is_v4_match word) = true ->
     Forall (fun part =>
               fst part <> [] /\ V4.is_v4_base (fst part) = true /\
               snd part = fst (V4.parse_greedy (fst part) V4.SLOTS_V4))
            (snd (V4.is_v4_match word)) /\
     concat (map fst (snd (V4.is_v4_match word))) = word /\
     1 <= length (snd (V4.is_v4_match word)) <= 2) /\
    (fst (V4.is_v4_match word) = false -> snd (V4.is_v4_match word) = []).
Proof.
  intros word. rewrite is_v4_match_match2.
  exact (match2_sound V4.SLOTS_V4 word).
Qed.

Lemma is_v4_match_parts_witness :
  concat (map fst (snd (V4.is_v4_match (lit "daiinchedy")))) = lit "daiinchedy".
Proof.
  apply (proj1 (is_v4_match_parts (lit "daiinchedy"))). reflexivity.
Defined.

(** *** The witness split of version 5, continued *)

Lemma firstn_length_app {A : Type} (p r : list A) :
  firstn (length p) (p ++ r) = p.
Proof.
  rewrite firstn_app, firstn_all, Nat.sub_diag. simpl. apply app_nil_r.
Qed.

Lemma skipn_length_app {A : Type} (p r : list A) :
  skipn (length p) (p ++ r) = r.
Proof.
  rewrite skipn_app, skipn_all, Nat.sub_diag. reflexivity.
Qed.

Lemma in_range1_length_app {A : Type} (p r : list A) :
  p <> [] -> r <> [] -> In (length p) (range1 (length (p ++ r))).
Proof.
  intros Hp Hr. apply nonempty_length in Hp, Hr.
  unfold range1. apply in_seq. rewrite length_app. lia.
Qed.

(** The iteration of a loop over [range] that returns is the first one that
    can. *)
Lemma for_first_seq_first {A : Type} (body : nat -> option A) (n : nat) :
  forall a r,
    for_first body (seq a n) = Some r ->
    exists i, a <= i < a + n /\ body i = Some r /\
              forall j, a <= j < i -> body j = None.
Proof.
  induction n as [|n IH]; simpl; intros a r H; [discriminate|].
  destruct (body a) as [r'|] eqn:E.
  - injection H as <-. exists a. split; [lia|]. split; [exact E|].
    intros j Hj. lia.
  - destruct (IH _ _ H) as (i & Hi & Hb & Hn).
    exists i. split; [lia|]. split; [exact Hb|].
    intros j Hj. destruct (Nat.eq_dec j a) as [->|Hne]; [exact E|].
    apply Hn. lia.
Qed.

(** The four ways [find_split] returns. *)
Lemma find_split_cases (w : str) :
  V5.find_split w = [] \/
  (V5.is_base w = true /\ exists m, V5.find_split w = [(w, m)]) \/
  (exists i m1 m2,
      In i (range1 (length w)) /\
      V5.is_base (firstn i w) = true /\ V5.is_base (skipn i w) = true /\
      V5.find_split w = [(firstn i w, m1); (skipn i w, m2)]) \/
  (exists i j m1 m2 m3,
      In i (range1 (length w)) /\ In j (range1 (length (skipn i w))) /\
      V5.is_base (firstn i w) = true /\
      V5.is_base (firstn j (skipn i w)) = true /\
      V5.is_base (skipn j (skipn i w)) = true /\
      V5.find_split w =
        [(firstn i w, m1); (firstn j (skipn i w), m2);
         (skipn j (skipn i w), m3)]).
Proof.
  unfold V5.find_split.
  destruct (V5.is_base w) eqn:E.
  - right; left. split; [reflexivity|]. rewrite let_fst. eauto.
  - match goal with |- context [for_first ?b ?l] =>
      destruct (for_first b l) as [parts|] eqn:F end; [|left; reflexivity].
    right; right.
    apply for_first_Some in F as (i & Hi & F). cbv zeta in F.
    destruct (V5.is_base (firstn i w)) eqn:E1; simpl in F; [|discriminate].
    rewrite let_fst in F.
    destruct (V5.is_base (skipn i w)) eqn:E2.
    + rewrite let_fst in F. injection F as <-. left.
      do 3 eexists. repeat split; eauto.
    + apply for_first_Some in F as (j & Hj & F). cbv zeta in F.
      destruct (V5.is_base (firstn j (skipn i w))) eqn:E3; simpl in F;
        [|discriminate].
      destruct (V5.is_base (skipn j (skipn i w))) eqn:E4; simpl in F;
        [|discriminate].
      rewrite !let_fst in F. injection F as <-. right.
      do 5 eexists. repeat split; eauto.
Qed.

Lemma in_range1_nonempty (w : str) (i : nat) :
  In i (range1 (length w)) -> firstn i w <> [] /\ skipn i w <> [].
Proof.
  unfold range1. intros H. apply in_seq in H. split; apply nonempty_length.
  - rewrite firstn_length_le; lia.
  - rewrite length_skipn; lia.
Qed.

(** X17. [find_split] and [is_v5] agree: a split is returned exactly for the
    words [is_v5] accepts, and it has at most three parts. *)
Theorem find_split_agrees_with_is_v5 :
  forall word : str,
    (V5.find_split word <> [] <-> V5.is_v5 word = true) /\
    length (V5.find_split word) <= 3.
Proof.
  intros word. split; [split|].
  - intros Hne. rewrite is_v5_search3. apply search3_spec.
    destruct (find_split_cases word)
      as [H|[[Hb _]|[(i & m1 & m2 & Hi & H1 & H2 & _)
                    |(i & j & m1 & m2 & m3 & Hi & Hj & H1 & H2 & H3 & _)]]].
    + congruence.
    + left. exact Hb.
    + destruct (in_range1_nonempty _ _ Hi) as [N1 N2].
      right. exists (firstn i word), (skipn i word).
      split; [exact N1|]. split; [exact N2|].
      split; [symmetry; apply firstn_skipn|]. split; [exact H1|].
      left. exact H2.
    + destruct (in_range1_nonempty _ _ Hi) as [N1 N2].
      destruct (in_range1_nonempty _ _ Hj) as [N3 N4].
      right. exists (firstn i word), (skipn i word).
      split; [exact N1|]. split; [exact N2|].
      split; [symmetry; apply firstn_skipn|]. split; [exact H1|].
      right. exists (firstn j (skipn i word)), (skipn j (skipn i word)).
      split; [exact N3|]. split; [exact N4|].
      split; [symmetry; apply firstn_skipn|]. split; [exact H2|exact H3].
  - apply find_split_complete.
  - destruct (find_split_cases word)
      as [->|[[_ [m ->]]|[(i & m1 & m2 & _ & _ & _ & ->)
                         |(i & j & m1 & m2 & m3 & _ & _ & _ & _ & _ & ->)]]];
      simpl; lia.
Qed.

(** X18. The first part [find_split] returns is the shortest first block
    that works: for a word that is not itself a full match, no full-matching
    prefix shorter than the returned first part is followed by a remainder
    that is one full match or two in a row. *)
Theorem find_split_first_part_shortest :
  forall (q rest p1 : str) (m1 : Matched) (parts : list (str * Matched)),
    V5.is_base (q ++ rest) = false ->
    V5.find_split (q ++ rest) = (p1, m1) :: parts ->
    V5.is_base q = true ->
    segmentation V5.is_base 2 rest ->
    length p1 <= length q.
Proof.
  intros q rest p1 m1 parts Hw Hfs Hq Hseg.
  unfold V5.find_split in Hfs. rewrite Hw in Hfs.
  match type of Hfs with context [for_first ?b ?l] =>
    destruct (for_first b l) as [res|] eqn:F end; [|discriminate].
  subst res. unfold range1 in F.
  apply for_first_seq_first in F as (i & Hi & Hb & Hfirst).
  assert (Hp1 : p1 = firstn i (q ++ rest)).
  { cbv zeta in Hb.
    destruct (V5.is_base (firstn i (q ++ rest))); simpl in Hb; [|discriminate].
    rewrite let_fst in Hb.
    destruct (V5.is_base (skipn i (q ++ rest))).
    - rewrite let_fst in Hb. now injection Hb as <- _ _.
    - apply for_first_Some in Hb as (j & _ & Hb). cbv zeta in Hb.
      destruct (V5.is_base (firstn j (skipn i (q ++ rest))) &&
                V5.is_base (skipn j (skipn i (q ++ rest)))); [|discriminate].
      rewrite !let_fst in Hb. now injection Hb as <- _ _. }
  assert (Hlen : length p1 = i) by (subst p1; rewrite firstn_length_le; lia).
  destruct (Nat.le_gt_cases (length p1) (length q)) as [|Hlt]; [assumption|].
  exfalso.
  assert (Hqne : 1 <= length q)
    by (apply nonempty_length, is_base_v5_nonempty; exact Hq).
  pose proof (Hfirst (length q) ltac:(lia)) as Hj. cbv zeta in Hj.
  rewrite firstn_length_app, skipn_length_app, Hq in Hj. simpl in Hj.
  rewrite let_fst in Hj.
  apply (segmentation_splits V5.is_base 1) in Hseg.
  destruct (V5.is_base rest) eqn:Hr.
  - rewrite let_fst in Hj. discriminate.
  - destruct Hseg as [Hb'|(p2 & p3 & N2 & N3 & -> & H2 & H3)]; [congruence|].
    simpl in H3.
    pose proof (for_first_None _ _ Hj (length p2)
                  (in_range1_length_app _ _ N2 N3)) as Hk.
    cbv beta zeta in Hk.
    rewrite firstn_length_app, skipn_length_app, H2, H3 in Hk. simpl in Hk.
    rewrite !let_fst in Hk. discriminate.
Qed.

Lemma find_split_first_part_shortest_witness :
  length (lit "a") <= length (lit "aiin").
Proof.
  apply (find_split_first_part_shortest (lit "aiin") (lit "aiin") (lit "a")
           (fst (V5.parse_greedy (lit "a")))
           [(lit "iin", fst (V5.parse_greedy (lit "iin")));
            (lit "aiin", fst (V5.parse_greedy (lit "aiin")))]).
  - reflexivity.
  - reflexivity.
  - reflexivity.
  - apply segmentation_mono with (n := 1); [lia|exact (aiin_blocks 0)].
Defined.

(** ** Further properties of the unknown-character diagnostic *)

Lemma startswith_split (w o : str) (pos : nat) :
  startswith w o pos = true -> skipn pos w = o ++ skipn (pos + length o) w.
Proof.
  unfold startswith. intros H. apply andb_true_iff in H as [_ H].
  apply is_prefix_app in H as [tail H].
  rewrite Nat.add_comm, <- skipn_skipn, H. now rewrite skipn_length_app.
Qed.

Lemma skipn_nth (l : str) :
  forall i, i < length l -> skipn i l = nth i l 0%N :: skipn (i + 1) l.
Proof.
  induction l as [|a l IH]; simpl; intros i Hi; [lia|].
  destruct i as [|i]; [reflexivity|]. simpl. apply IH. lia.
Qed.

(** What the loop adds to [result] from position [i] on. *)
Lemma unknown_loop_inv (options : list str) (text : str) :
  forall fuel i result r,
    V1.unknown_loop fuel options text i result = Some r ->
    exists flagged,
      r = result ++ flagged /\
      length flagged <= length text - i /\
      (forall c, In c flagged -> In c (skipn i text)) /\
      (forall c, In c (skipn i text) ->
                 (forall o, In o options -> ~ In c o) -> In c flagged) /\
      (flagged = [] ->
       exists os, Forall (fun o => In o options) os /\
                  concat os = skipn i text).
Proof.
  induction fuel as [|fuel IH]; intros i result r H; [discriminate|].
  simpl in H. destruct (i <? length text) eqn:E.
  - apply Nat.ltb_lt in E.
    destruct (first_option text i (V1.sorted_by_len options)) as [opt|] eqn:F.
    + apply first_option_startswith in F as [Hin F].
      apply (proj1 (in_sorted_by_len _ _)) in Hin.
      apply startswith_split in F.
      destruct (IH _ _ _ H) as (flagged & -> & Hl & Hs & Hc & Hn).
      exists flagged. split; [reflexivity|]. split; [lia|].
      split; [|split].
      * intros c Hcf. rewrite F. apply in_or_app. right. auto.
      * intros c Hct Hno. rewrite F in Hct.
        apply in_app_or in Hct as [Hct|Hct]; [|auto].
        exfalso. exact (Hno _ Hin Hct).
      * intros Hnil. destruct (Hn Hnil) as (os & Hos & Hcat).
        exists (opt :: os). split; [constructor; auto|].
        simpl. now rewrite Hcat, F.
    + destruct (IH _ _ _ H) as (flagged & -> & Hl & Hs & Hc & Hn).
      pose proof (skipn_nth text i E) as S.
      exists (nth i text 0%N :: flagged).
      split; [now rewrite <- app_assoc|]. split; [simpl; lia|].
      split; [|split].
      * intros c [<-|Hcf]; rewrite S; [left; reflexivity|right; auto].
      * intros c Hct Hno. rewrite S in Hct.
        destruct Hct as [<-|Hct]; [left; reflexivity|right; auto].
      * discriminate.
  - injection H as <-. apply Nat.ltb_ge in E.
    exists []. rewrite app_nil_r, (skipn_all2 text) by exact E.
    repeat split; auto; try (simpl; lia); try tauto.
    intros _. exists []. split; [constructor|reflexivity].
Qed.

(** X19. [unknown_chars_in] returns for every text, within the
    [len(text) + 1] iterations its loop can take, and what it returns is
    made of characters of the text, at most one per position. *)
Theorem unknown_chars_in_from_text :
  forall text : str,
    exists r, V1.unknown_chars_in text = Some r /\
              length r <= length text /\
              forall c, In c r -> In c text.
Proof.
  intros text. destruct (unknown_chars_in_total text) as [r H].
  exists r. split; [exact H|].
  apply unknown_loop_inv in H as (flagged & -> & Hl & Hs & _).
  simpl in *. split; [lia|exact Hs].
Qed.

(** X20. A character of the text that occurs in no option of any slot is
    always among the characters [unknown_chars_in] returns. *)
Theorem unknown_chars_in_complete :
  forall (text : str) (r : list char) (c : char),
    V1.unknown_chars_in text = Some r ->
    In c text ->
    (forall o, In o V1.ALL_OPTIONS -> ~ In c o) ->
    In c r.
Proof.
  intros text r c H Hc Hno.
  apply unknown_loop_inv in H as (flagged & -> & _ & _ & Hcomp & _).
  simpl in *. auto.
Qed.

Lemma no_option_has_z :
  forall o, In o V1.ALL_OPTIONS -> ~ In char_z o.
Proof.
  assert (F : forallb (fun o => negb (existsb (N.eqb char_z) o)) V1.ALL_OPTIONS
              = true) by reflexivity.
  rewrite forallb_forall in F. intros o Ho Hz. apply F in Ho.
  apply negb_true_iff in Ho.
  assert (existsb (N.eqb char_z) o = true)
    by (apply existsb_exists; exists char_z; split; [auto|apply N.eqb_refl]).
  congruence.
Qed.

Lemma unknown_chars_in_complete_witness :
  In char_z (lit "z").
Proof.
  apply (unknown_chars_in_complete (lit "chzy") (lit "z") char_z).
  - reflexivity.
  - vm_compute. tauto.
  - exact no_option_has_z.
Defined.

(** X21. When [unknown_chars_in] returns no character, the text is a
    concatenation of options of the grammar. *)
Theorem unknown_chars_in_none_flagged :
  forall text : str,
    V1.unknown_chars_in text = Some [] ->
    exists os, Forall (fun o => In o V1.ALL_OPTIONS) os /\ concat os = text.
Proof.
  intros text H.
  apply unknown_loop_inv in H as (flagged & Hr & _ & _ & _ & Hn).
  simpl in Hr. subst flagged. exact (Hn eq_refl).
Qed.

Lemma unknown_chars_in_none_flagged_witness :
  exists os, Forall (fun o => In o V1.ALL_OPTIONS) os /\
             concat os = lit "chedy".
Proof.
  apply (unknown_chars_in_none_flagged (lit "chedy")). reflexivity.
Defined.

(** *** The order in which the set of options is iterated *)

Lemma insert_by_len_sorted (x : str) (l : list str) :
  StronglySorted (fun a b => length b <= length a) l ->
  StronglySorted (fun a b => length b <= length a) (V1.insert_by_len x l).
Proof.
  induction 1 as [|y l Hs IH Hy]; simpl.
  - repeat constructor.
  - destruct (length y <=? length x) eqn:E.
    + apply Nat.leb_le in E. constructor; [constructor; auto|].
      constructor; [exact E|].
      eapply Forall_impl; [|exact Hy]. simpl. intros; lia.
    + apply Nat.leb_gt in E. constructor; [exact IH|].
      apply Forall_forall. intros o Ho.
      apply in_insert_by_len in Ho as [<-|Ho]; [lia|].
      rewrite Forall_forall in Hy. auto.
Qed.

Lemma sorted_by_len_sorted (l : list str) :
  StronglySorted (fun a b => length b <= length a) (V1.sorted_by_len l).
Proof.
  induction l as [|x l IH]; simpl; [constructor|].
  apply insert_by_len_sorted, IH.
Qed.

Lemma first_option_longest (w : str) (i : nat) (l : list str) (o : str) :
  StronglySorted (fun a b => length b <= length a) l ->
  first_option w i l = Some o ->
  forall o', In o' l -> startswith w o' i = true -> length o' <= length o.
Proof.
  induction 1 as [|a l Hs IH Ha]; simpl; [discriminate|].
  destruct (startswith w a i) eqn:E.
  - intros [= <-] o' [<-|Ho'] _; [lia|].
    rewrite Forall_forall in Ha. auto.
  - intros H o' [<-|Ho'] Hm; [congruence|]. eapply IH; eauto.
Qed.

Lemma first_option_None_inv (w : str) (i : nat) (l : list str) :
  first_option w i l = None -> forall o, In o l -> startswith w o i = false.
Proof.
  induction l as [|a l IH]; simpl; [tauto|].
  destruct (startswith w a i) eqn:E; [discriminate|].
  intros H o [<-|Ho]; auto.
Qed.

Lemma startswith_same_length (w o1 o2 : str) (i : nat) :
  startswith w o1 i = true -> startswith w o2 i = true ->
  length o1 = length o2 -> o1 = o2.
Proof.
  intros H1 H2 Hl. apply startswith_split in H1, H2.
  rewrite <- (firstn_length_app o1 (skipn (i + length o1) w)).
  rewrite <- (firstn_length_app o2 (skipn (i + length o2) w)).
  rewrite <- H1, <- H2, Hl. reflexivity.
Qed.

Lemma first_option_sorted_same (w : str) (i : nat) (l1 l2 : list str) :
  (forall o, In o l1 -> In o l2) ->
  (forall o, In o l2 -> In o l1) ->
  first_option w i (V1.sorted_by_len l1) = first_option w i (V1.sorted_by_len l2).
Proof.
  intros H12 H21.
  destruct (first_option w i (V1.sorted_by_len l1)) as [o1|] eqn:F1;
    destruct (first_option w i (V1.sorted_by_len l2)) as [o2|] eqn:F2;
    try reflexivity.
  - destruct (first_option_startswith _ _ _ _ F1) as [I1 S1].
    destruct (first_option_startswith _ _ _ _ F2) as [I2 S2].
    f_equal. apply (startswith_same_length w _ _ i S1 S2).
    apply Nat.le_antisymm.
    + apply (first_option_longest _ _ _ _ (sorted_by_len_sorted l2) F2); auto.
      apply in_sorted_by_len, H12. now apply (proj1 (in_sorted_by_len _ _)).
    + apply (first_option_longest _ _ _ _ (sorted_by_len_sorted l1) F1); auto.
      apply in_sorted_by_len, H21. now apply (proj1 (in_sorted_by_len _ _)).
  - destruct (first_option_startswith _ _ _ _ F1) as [I1 S1].
    rewrite (first_option_None_inv _ _ _ F2 o1) in S1; [discriminate|].
    apply in_sorted_by_len, H12. now apply (proj1 (in_sorted_by_len _ _)).
  - destruct (first_option_startswith _ _ _ _ F2) as [I2 S2].
    rewrite (first_option_None_inv _ _ _ F1 o2) in S2; [discriminate|].
    apply in_sorted_by_len, H21. now apply (proj1 (in_sorted_by_len _ _)).
Qed.

(** X22. The result of the diagnostic does not depend on the order in which
    the set of options is iterated: two orders of the same set give the same
    characters for every text. *)
Theorem unknown_chars_order_irrelevant :
  forall (options1 options2 : list str) (text : str),
    Permutation options1 options2 ->
    V1.unknown_chars_over options1 text = V1.unknown_chars_over options2 text.
Proof.
  intros options1 options2 text HP. unfold V1.unknown_chars_over.
  generalize (S (length text)) as fuel, 0 as i, (@nil char) as result.
  induction fuel as [|fuel IH]; intros i result; [reflexivity|].
  simpl.
  rewrite (first_option_sorted_same text i options1 options2);
    [|intros o; apply Permutation_in; exact HP
     |intros o; apply Permutation_in; symmetry; exact HP].
  destruct (i <? length text); [|reflexivity].
  destruct (first_option text i (V1.sorted_by_len options2)); apply IH.
Qed.

Lemma unknown_chars_order_irrelevant_witness :
  V1.unknown_chars_over [lit "s"; lit "sh"] (lit "shx")
  = V1.unknown_chars_over [lit "sh"; lit "s"] (lit "shx").
Proof.
  apply (unknown_chars_order_irrelevant [lit "s"; lit "sh"] [lit "sh"; lit "s"]).
  apply perm_swap.
Defined.

(** ** How long an accepted word can be *)

Lemma segmentation_length (base : str -> bool) (k : nat) :
  (forall b, base b = true -> length b <= k) ->
  forall n w, segmentation base n w -> length w <= n * k.
Proof.
  intros Hk n w (bs & [_ Hl] & Hf & <-).
  assert (H : forall l, Forall (full_block base) l ->
                        length (concat l) <= length l * k).
  { induction 1 as [|b l [_ Hb] _ IH]; simpl; [lia|].
    rewrite length_app. apply Hk in Hb. lia. }
  apply H in Hf. nia.
Qed.

Lemma is_base_v6_length (b : str) : V6.is_base b = true -> length b <= 24.
Proof.
  intros H. change (V6.is_base b) with (full_match V6.SLOTS_V4 b) in H.
  rewrite full_match_is_match in H.
  apply is_match_inv in H as (m & pos & E & Hr & _).
  apply parse_loop_bound in E as [E _]. apply skipn_nil_length in Hr.
  change (list_sum (map max_option_len V6.SLOTS_V4)) with 24 in E. lia.
Qed.

(** X23. The words [is_v6] accepts are bounded in length: a block matched
    in one pass has at most 24 characters, the longest options of the
    sixteen slots put together, so no word longer than 96 characters is
    accepted. *)
Theorem is_v6_length_bound :
  forall word : str, V6.is_v6 word = true -> length word <= 96.
Proof.
  intros word H. rewrite is_v6_search4 in H.
  apply (search4_segmentation V6.is_base is_base_v6_nil) in H.
  apply (segmentation_length V6.is_base 24 is_base_v6_length) in H. lia.
Qed.

Lemma is_v6_length_bound_witness :
  length (lit "aiinaiinaiinaiin") <= 96.
Proof.
  apply (is_v6_length_bound (lit "aiinaiinaiinaiin")). reflexivity.
Defined.

(** ** The residue that [main] of version 4 keeps for an unmatched word *)

Lemma fold_left_invariant {A B : Type} (f : A -> B -> A) (P : A -> Prop)
    (l : list B) :
  (forall acc x, In x l -> P acc -> P (f acc x)) ->
  forall init, P init -> P (fold_left f l init).
Proof.
  induction l as [|x l IH]; simpl; intros Hf init Hi; [exact Hi|].
  apply IH; auto.
Qed.

Lemma parse_greedy_leftover (w : str) (slots : Grammar) (m : Matched) (r : str) :
  V2.parse_greedy w slots = (m, r) ->
  exists pos, parse_loop w slots 0 0 [] = (m, pos) /\ r = skipn pos w.
Proof.
  unfold V2.parse_greedy.
  destruct (parse_loop w slots 0 0 []) as [m' pos].
  intros [= <- <-]. eauto.
Qed.

Lemma parse_all_consumed (w : str) (slots : Grammar) (m : Matched) :
  V2.parse_greedy w slots = (m, []) -> w <> [] -> m <> [].
Proof.
  intros H Hw. apply parse_greedy_leftover in H as (pos & E & Hr).
  destruct (full_parse_spells _ _ _ _ E (eq_sym Hr)) as [Hs _].
  intros ->. simpl in Hs. congruence.
Qed.

(** X24. For a non-empty word that [is_v4_match] rejects, the residue kept by
    [main] is never empty, so the first character it is counted under always
    exists, and it is a suffix of the word. *)
Theorem best_rem_nonempty_suffix :
  forall w : str,
    w <> [] ->
    fst (V4.is_v4_match w) = false ->
    V4Main.best_rem w <> [] /\ exists pre, w = pre ++ V4Main.best_rem w.
Proof.
  intros w Hw Hno.
  assert (Hsplit : forall i, In i (range1 (length w)) ->
            full_match V4.SLOTS_V4 (firstn i w)
            && full_match V4.SLOTS_V4 (skipn i w) = false).
  { rewrite is_v4_match_match2 in Hno.
    destruct (match2_cases V4.SLOTS_V4 w)
      as [[_ E]|[(_ & i & _ & _ & _ & E)|(_ & Hn & _)]];
      [rewrite E in Hno; discriminate|rewrite E in Hno; discriminate|exact Hn]. }
  unfold V4Main.best_rem.
  change V4.parse_greedy with V2.parse_greedy.
  destruct (V2.parse_greedy w V4.SLOTS_V4) as [m r] eqn:E.
  apply fold_left_invariant.
  - intros best i Hi [Hne Hsuf]. cbv zeta.
    destruct (V2.parse_greedy (firstn i w) V4.SLOTS_V4) as [m1 r1] eqn:E1.
    destruct (negb (is_empty r1) || is_empty m1) eqn:C; [auto|].
    destruct (V2.parse_greedy (skipn i w) V4.SLOTS_V4) as [m2 r2] eqn:E2.
    destruct (length r2 <? length best); [|auto].
    apply orb_false_iff in C as [C1 C2]. apply negb_false_iff in C1.
    split.
    + intros ->. specialize (Hsplit i Hi).
      unfold full_match in Hsplit. rewrite E1, E2, C1, C2 in Hsplit.
      simpl in Hsplit.
      destruct (in_range1_nonempty _ _ Hi) as [_ N2].
      pose proof (parse_all_consumed _ _ _ E2 N2) as Hm2.
      destruct m2; [congruence|discriminate].
    + apply parse_greedy_leftover in E2 as (pos & _ & ->).
      rewrite skipn_skipn. exists (firstn (pos + i) w).
      symmetry. apply firstn_skipn.
  - apply parse_greedy_leftover in E as (pos & _ & ->).
    destruct (skipn pos w) eqn:S; simpl.
    + split; [exact Hw|]. exists []. reflexivity.
    + split; [discriminate|]. exists (firstn pos w). rewrite <- S.
      symmetry. apply firstn_skipn.
Qed.

Lemma best_rem_nonempty_suffix_witness :
  V4Main.best_rem (lit "daiinz") <> [].
Proof.
  apply (best_rem_nonempty_suffix (lit "daiinz")).
  - discriminate.
  - reflexivity.
Defined.
